(** * Minimal optimization example: the cost model and its QUBO form

    A shallow embedding of the notebook [Minimal-optimization-example.ipynb].
    The notebook states the cost function

      sum_{i<N} C_i X_i  +  P (sum_{i<N} X_i - 1)^2

    symbolically, substitutes the data [TestN], [TestC], [TestP], expands it
    into a polynomial in the generators [X[0] .. X[N-1]] and reads coefficients
    off that polynomial to fill the solver inputs: a quadratic program for
    the eigensolvers and a QUBO dictionary for the annealer.

    Costs, penalty and coefficients are exact numbers, integers or rationals,
    modelled by the canonical rationals [Qc]; the integer [z] is the rational
    [Qc_of_Z z]. Floating point is not modelled. Dictionaries are modelled by
    [gmap], polynomials by their expanded list of terms, monomials by exponent
    tuples. The number of variables is a natural number; the notebook builds
    the polynomial over at least one generator, so that [N] is at least 1
    wherever a property is stated. *)

From Stdlib Require Import ZArith QArith Qcanon Lia.
From stdpp Require Import gmap list fin_maps strings pretty numbers.

Local Open Scope Qc_scope.

(** ** Numbers *)

(** [int(q)]: the integer part of a number, truncated toward zero. *)
Definition int (q : Qc) : Qc := Qc_of_Z (Z.quot (Qnum q) (Z.pos (Qden q))).

(** ** Sums over lists *)

Definition sumQ {A} (f : A → Qc) (l : list A) : Qc :=
  foldr (λ a acc, f a + acc) 0 l.

(** The indicator of a decidable proposition. *)
Definition ind (P : Prop) `{Decision P} : Qc := if decide P then 1 else 0.

(** ** Monomials: exponent tuples over the generators X[0] .. X[N-1] *)

Module Monomial.

Abbreviation t := (list nat).

(** The product of two monomials adds the exponents position by position. *)
Definition mul (m n : t) : t := zip_with Nat.add m n.

(** The monomial 1. *)
Definition one (N : nat) : t := replicate N 0%nat.

(** The generator [X[i]], that is [X[i]**1]. *)
Definition var (N i : nat) : t :=
  (λ k, if decide (k = i) then 1%nat else 0%nat) <$> seq 0 N.

(** The exponent of [X[k]] in a monomial. *)
Definition exponent (m : t) (k : nat) : nat := default 0%nat (m !! k).

(** The value of a monomial at a point [b]; [k] is the index of the first
    exponent of the tuple. *)
Fixpoint eval_from (k : nat) (b : nat → Qc) (m : t) : Qc :=
  match m with
  | [] => 1
  | e :: m' => b k ^ e * eval_from (S k) b m'
  end.

Definition eval (b : nat → Qc) (m : t) : Qc := eval_from 0 b m.

End Monomial.

(** ** Polynomials in expanded form *)

Module Poly.

(** A polynomial is the list of the terms of its expansion; like terms are
    collected when a coefficient is read ([coeff_monomial]). *)
Abbreviation term := (Monomial.t * Qc)%type.
Abbreviation t := (list term).

Definition const (N : nat) (c : Qc) : t := [(Monomial.one N, c)].
Definition var (N i : nat) : t := [(Monomial.var N i, 1)].
Definition add (p q : t) : t := p ++ q.
Definition scale (c : Qc) (p : t) : t := (λ s, (s.1, c * s.2)) <$> p.
Definition mul (p q : t) : t :=
  s ← p; (λ u, (Monomial.mul s.1 u.1, s.2 * u.2)) <$> q.

Fixpoint pow (N : nat) (p : t) (n : nat) : t :=
  match n with
  | O => const N 1
  | S O => p
  | S n' => mul p (pow N p n')
  end.

(** [Sum(f(i), (i, 0, N-1)).doit()] *)
Definition sum (f : nat → t) (N : nat) : t := i ← seq 0 N; f i.

(** [Poly.coeff_monomial]: the coefficient of the monomial [m], the sum
    of the coefficients of the expanded terms whose monomial is [m]. *)
Definition coeff_monomial (p : t) (m : Monomial.t) : Qc :=
  foldr (λ s acc, (if decide (s.1 = m) then s.2 else 0) + acc) 0 p.

(** The value of the polynomial at the point [b]. *)
Definition eval (b : nat → Qc) (p : t) : Qc :=
  foldr (λ s acc, s.2 * Monomial.eval b s.1 + acc) 0 p.

End Poly.

(** ** Dictionaries and solver inputs *)

(** A dictionary comprehension: the items are inserted in order, a later
    item replaces an earlier one with the same key. *)
Definition dict `{Countable K} {V} (items : list (K * V)) : gmap K V :=
  foldl (λ d kv, <[kv.1 := kv.2]> d) ∅ items.

(** An assignment of the binary variables; a variable beyond the end of the
    list has value 0. *)
Definition bit (x : list bool) (i : nat) : Qc :=
  if default false (x !! i) then 1 else 0.

(** The objective of a QUBO dictionary [Q] at [x]: the sum of
    [Q[(i, j)] * x[i] * x[j]] over the entries of [Q]. *)
Definition qubo_energy (Q : gmap (nat * nat) Qc) (x : list bool) : Qc :=
  map_fold (λ ij v acc, v * bit x ij.1 * bit x ij.2 + acc) 0 Q.

(** A quadratic program: the declared binary variables, the linear
    coefficients by position and the quadratic coefficients by pair of
    variable names. *)
Record QuadraticProgram := {
  qp_variables : list string;
  qp_linear : list Qc;
  qp_quadratic : gmap (string * string) Qc
}.

(** The position of a declared variable; [None] for an unknown name. *)
Definition var_index (vars : list string) (name : string) : option nat :=
  fst <$> list_find (λ v, v = name) vars.

Definition linear_value (x : list bool) (lin : list Qc) : Qc :=
  sumQ (λ i, default 0 (lin !! i) * bit x i) (seq 0 (length lin)).

(** One quadratic term added to the sum of the others; the sum is undefined
    once a name is not a declared variable. *)
Definition quadratic_step (vars : list string) (x : list bool)
    (ab : string * string) (v : Qc) (acc : option Qc) : option Qc :=
  i ← var_index vars ab.1; j ← var_index vars ab.2; s ← acc;
  Some (v * bit x i * bit x j + s).

Definition quadratic_value (vars : list string) (x : list bool)
    (quad : gmap (string * string) Qc) : option Qc :=
  map_fold (quadratic_step vars x) (Some 0) quad.

(** The objective of a quadratic program at [x]; it is undefined when a
    quadratic coefficient names an undeclared variable. *)
Definition qp_objective (qp : QuadraticProgram) (x : list bool) : option Qc :=
  q ← quadratic_value (qp_variables qp) x (qp_quadratic qp);
  Some (linear_value x (qp_linear qp) + q).

(** ** The notebook *)

(** The outcome of substituting the data into the cost function: the
    polynomial, or the error that the specification names. *)
Inductive instantiation :=
  | Instantiated (p : Poly.t)
  | DimensionMismatch.

(** [cost_function]: the symbolic cost, as a function of the values of the
    symbols [N], [C] and [P], expanded over the generators X[0] .. X[N-1]. *)
Definition cost_function (N : nat) (C : nat → Qc) (P : Qc) : Poly.t :=
  Poly.add
    (Poly.sum (λ i, Poly.scale (C i) (Poly.var N i)) N)
    (Poly.scale P
       (Poly.pow N (Poly.add (Poly.sum (Poly.var N) N) (Poly.const N (-1))) 2)).

Section Notebook.

(** The indexed symbol [C = sym.IndexedBase('C')]: [C k] is the value of
    the symbol [C[k]] wherever it is left free. *)
Variable C : nat → Qc.

(** [cost_dict = { C[k]: TestC[k] for k in range(len(TestC)) }], applied
    as a substitution: [C[k]] becomes [TestC[k]] for [k] below the length
    of [TestC] and stays the free symbol otherwise. *)
Definition cost_dict (TestC : list Qc) : nat → Qc :=
  λ k, default (C k) (TestC !! k).

(** [num_qubits = TestN] *)
Definition num_qubits (TestN : nat) : nat := TestN.

(** [cost_poly]: the cost function with [N], [P] and then the costs
    substituted, as a polynomial in [X[i] for i in range(num_qubits)]. *)
Definition cost_poly (TestN : nat) (TestC : list Qc) (TestP : Qc) : Poly.t :=
  cost_function (num_qubits TestN) (cost_dict TestC) TestP.

(** The cell that builds [cost_dict] and [cost_poly] compares no lengths
    and raises nothing: the substitution ignores the entries of [TestC]
    beyond [TestN] and leaves [C[k]] free where [TestC] has no entry. *)
Definition instantiate (TestN : nat) (TestC : list Qc) (TestP : Qc) : instantiation :=
  Instantiated (cost_poly TestN TestC TestP).

(** The dictionary comprehensions of the notebook range over
    [for i in range(n) for j in range(i, n)]. *)
Definition upper_pairs (n : nat) : list (nat * nat) :=
  i ← seq 0 n; j ← seq i (n - i); [(i, j)].

(** The entry of the QUBO matrix at [(i, j)], read off a polynomial [p]:
    [p.coeff_monomial(X[i]**1 * X[j]**1)
       + (p.coeff_monomial(X[i]**1) if (i==j) else 0)]. *)
Definition Qubo_entry (p : Poly.t) (n : nat) (ij : nat * nat) : Qc :=
  Poly.coeff_monomial p (Monomial.mul (Monomial.var n ij.1) (Monomial.var n ij.2))
  + (if decide (ij.1 = ij.2) then Poly.coeff_monomial p (Monomial.var n ij.1) else 0).

Definition Qubo_items (p : Poly.t) (n : nat) : list ((nat * nat) * Qc) :=
  (λ ij, (ij, Qubo_entry p n ij)) <$> upper_pairs n.

(** [Qubo], the dictionary handed to the annealer. *)
Definition Qubo (TestN : nat) (TestC : list Qc) (TestP : Qc) : gmap (nat * nat) Qc :=
  dict (Qubo_items (cost_poly TestN TestC TestP) (num_qubits TestN)).

(** [cost_poly_vis] and the QUBO matrix of the visualization cell: only
    [N] is substituted, the costs and the penalty stay symbolic ([P] is
    the value of the symbol [P]). *)
Definition cost_poly_vis (TestN : nat) (P : Qc) : Poly.t :=
  cost_function (num_qubits TestN) C P.

Definition Qubo_vis (TestN : nat) (P : Qc) : gmap (nat * nat) Qc :=
  dict (Qubo_items (cost_poly_vis TestN P) (num_qubits TestN)).

(** The name of the i-th variable of the quadratic program, ['X_' + str(i)]. *)
Definition var_name (i : nat) : string := "X_" +:+ pretty i.

(** [qiskit_cost_function]: the variables declared by [binary_var] and the
    [linear] and [quadratic] arguments of [minimize]; the linear
    coefficients, and only they, go through [int(.)]. *)
Definition qiskit_cost_function (TestN : nat) (TestC : list Qc) (TestP : Qc)
    : QuadraticProgram :=
  let n := num_qubits TestN in
  let p := cost_poly TestN TestC TestP in
  {| qp_variables := var_name <$> seq 0 n;
     qp_linear := (λ i, int (Poly.coeff_monomial p (Monomial.var n i))) <$> seq 0 n;
     qp_quadratic :=
       dict ((λ ij, ((var_name ij.1, var_name ij.2),
                     Poly.coeff_monomial p
                       (Monomial.mul (Monomial.var n ij.1) (Monomial.var n ij.2))))
               <$> upper_pairs n) |}.

End Notebook.

Definition TestN : nat := 5.
Definition TestC : list Qc := Qc_of_Z <$> [4; 3; 7; 2; 9]%Z.
Definition TestP : Qc := Qc_of_Z 50.

(** Assignments with one or two variables set. *)
Definition one_hot (N k : nat) : list bool :=
  (λ i, bool_decide (i = k)) <$> seq 0 N.
Definition two_hot (N k l : nat) : list bool :=
  (λ i, bool_decide (i = k ∨ i = l)) <$> seq 0 N.
Definition all_zero (N : nat) : list bool := replicate N false.

(** The least objective over the feasible assignments, those that set
    exactly one variable; there is none when [N = 0]. *)
Definition Qcmin (a b : Qc) : Qc := if decide (a ≤ b) then a else b.

(** The least element of a list, if it has one. *)
Definition min_list (l : list Qc) : option Qc :=
  match l with
  | [] => None
  | e :: es => Some (foldr Qcmin e es)
  end.

Definition feasible_energies (Q : gmap (nat * nat) Qc) (N : nat) : list Qc :=
  (λ k, qubo_energy Q (one_hot N k)) <$> seq 0 N.

Definition min_feasible (Q : gmap (nat * nat) Qc) (N : nat) : option Qc :=
  min_list (feasible_energies Q N).

(** The sum of the costs. *)
Definition total_cost (TestC : list Qc) : Qc := foldr Qcplus 0 TestC.

(** ** The visualization cell *)

(** [visualization = [[0 for i in range(n)] for j in range(n)]]: [n] rows of
    [n] zeros, each row a list of its own. *)
Definition zeros (n : nat) : list (list Qc) := replicate n (replicate n 0).

(** [visualization[key[0]][key[1]] = value]: the row is looked up, then the
    cell is assigned; [None] stands for the IndexError of an index beyond
    the end of a list. *)
Definition set_cell (M : list (list Qc)) (key : nat * nat) (value : Qc)
    : option (list (list Qc)) :=
  row ← M !! key.1;
  if decide (key.2 < length row)%nat
  then Some (<[key.1 := <[key.2 := value]> row]> M)
  else None.

(** [for key, value in items: visualization[key[0]][key[1]] = value] *)
Definition fill (n : nat) (items : list ((nat * nat) * Qc)) : option (list (list Qc)) :=
  foldl (λ acc kv, M ← acc; set_cell M kv.1 kv.2) (Some (zeros n)) items.

(** The loop over [Qubo.items()]. *)
Definition visualization (n : nat) (Q : gmap (nat * nat) Qc) : option (list (list Qc)) :=
  fill n (map_to_list Q).

(** [M[i][j]], if there is such a cell. *)
Definition cell (M : list (list Qc)) (i j : nat) : option Qc :=
  row ← M !! i; row !! j.

(** ** Notions used in the proofs *)

(** How many ordered pairs of generators, how many single generators and
    whether the empty product give the monomial [m]. *)
Definition pairs_to (N : nat) (m : Monomial.t) : Qc :=
  sumQ (λ p,
    sumQ (λ q, ind (Monomial.mul (Monomial.var N p) (Monomial.var N q) = m)) (seq 0 N))
    (seq 0 N).
Definition gens_to (N : nat) (m : Monomial.t) : Qc :=
  sumQ (λ p, ind (Monomial.var N p = m)) (seq 0 N).
Definition unit_to (N : nat) (m : Monomial.t) : Qc := ind (Monomial.one N = m).

(** Every monomial of a polynomial is an exponent tuple of length [N]. *)
Definition wf (N : nat) (p : Poly.t) : Prop := Forall (λ s, length s.1 = N) p.

(** The number of variables that an assignment sets. *)
Fixpoint weight (x : list bool) : nat :=
  match x with
  | [] => 0
  | b :: x' => (if b then 1 else 0) + weight x'
  end.

(** The total degree of a monomial. *)
Definition degree (m : Monomial.t) : nat := sum_list m.

(** A matrix of [n] rows of length [n]. *)
Definition square (n : nat) (M : list (list Qc)) : Prop :=
  length M = n ∧ Forall (λ row, length row = n) M.

(** An index pair within an [n] by [n] matrix. *)
Definition in_range (n : nat) (key : nat * nat) : Prop :=
  (key.1 < n)%nat ∧ (key.2 < n)%nat.

Global Instance in_range_dec (n : nat) (key : nat * nat) : Decision (in_range n key) :=
  and_dec _ _.

(** * Properties *)

(** ** Sums *)

Section Sums.
Context {A : Type}.
Implicit Types (f g : A → Qc) (l : list A).

Lemma sumQ_app f l1 l2 : sumQ f (l1 ++ l2) = sumQ f l1 + sumQ f l2.
Proof. induction l1 as [|i l1 IH]; simpl; [ring | rewrite IH; ring]. Qed.

Lemma sumQ_ext f g l : (∀ i, i ∈ l → f i = g i) → sumQ f l = sumQ g l.
Proof.
  induction l as [|i l IH]; intros Hfg; simpl; [done|].
  rewrite Hfg, IH; [done | | left]. intros k Hk. apply Hfg. by right.
Qed.

Lemma sumQ_zero l : sumQ (λ _, 0) l = 0.
Proof. induction l as [|a l IH]; simpl; [done | rewrite IH; ring]. Qed.

Lemma sumQ_add f g l : sumQ (λ i, f i + g i) l = sumQ f l + sumQ g l.
Proof. induction l as [|i l IH]; simpl; [ring | rewrite IH; ring]. Qed.

Lemma sumQ_sub f g l : sumQ (λ i, f i - g i) l = sumQ f l - sumQ g l.
Proof. induction l as [|i l IH]; simpl; [ring | rewrite IH; ring]. Qed.

Lemma sumQ_scale_l c f l : sumQ (λ i, c * f i) l = c * sumQ f l.
Proof. induction l as [|i l IH]; simpl; [ring | rewrite IH; ring]. Qed.

Lemma sumQ_scale_r c f l : sumQ (λ i, f i * c) l = sumQ f l * c.
Proof. induction l as [|i l IH]; simpl; [ring | rewrite IH; ring]. Qed.

Lemma sumQ_fmap {B} (h : B → A) f (k : list B) : sumQ f (h <$> k) = sumQ (f ∘ h) k.
Proof. induction k as [|b k IH]; csimpl; [done | by rewrite IH]. Qed.

Lemma sumQ_bind {B} (h : B → list A) f (k : list B) :
  sumQ f (k ≫= h) = sumQ (λ b, sumQ f (h b)) k.
Proof. induction k as [|b k IH]; csimpl; [done | by rewrite sumQ_app, IH]. Qed.

Lemma sumQ_permutation f l1 l2 : l1 ≡ₚ l2 → sumQ f l1 = sumQ f l2.
Proof.
  induction 1 as [|a l1 l2 _ IH| |l1 l2 l3 _ IH1 _ IH2]; simpl;
    [done | by rewrite IH | ring | congruence].
Qed.

End Sums.

(** A sum that selects one index. *)
Lemma sumQ_select (f : nat → Qc) (k : nat) (l : list nat) :
  NoDup l → sumQ (λ i, f i * ind (i = k)) l = if decide (k ∈ l) then f k else 0.
Proof.
  unfold ind. induction 1 as [|i l Hi Hl IH]; simpl.
  - done.
  - rewrite IH. destruct (decide (i = k)) as [->|Hne].
    + rewrite (decide_False (P := k ∈ l)) by done.
      rewrite (decide_True (P := k ∈ k :: l)) by apply list_elem_of_here. ring.
    + destruct (decide (k ∈ l)) as [Hk|Hk].
      * rewrite (decide_True (P := k ∈ i :: l)) by (by apply list_elem_of_further). ring.
      * rewrite (decide_False (P := k ∈ i :: l)); [ring|].
        intros [?|?]%elem_of_cons; [congruence | done].
Qed.

Lemma sumQ_select_seq (f : nat → Qc) (k n : nat) :
  (k < n)%nat → sumQ (λ i, f i * ind (i = k)) (seq 0 n) = f k.
Proof.
  intros Hk. rewrite sumQ_select by apply NoDup_seq.
  rewrite decide_True; [done|]. apply elem_of_seq. lia.
Qed.

Lemma sumQ_ind_seq (k n : nat) : (k < n)%nat → sumQ (λ i, ind (i = k)) (seq 0 n) = 1.
Proof.
  intros Hk. rewrite <-(sumQ_select_seq (λ _, 1) k n Hk).
  apply sumQ_ext. intros; ring.
Qed.

Lemma sumQ_seq_ext (f g : nat → Qc) n :
  (∀ i, (i < n)%nat → f i = g i) → sumQ f (seq 0 n) = sumQ g (seq 0 n).
Proof. intros H. apply sumQ_ext. intros i Hi%elem_of_seq. apply H. lia. Qed.

Lemma sumQ_seq_zero (f : nat → Qc) n : (∀ i, (i < n)%nat → f i = 0) → sumQ f (seq 0 n) = 0.
Proof. intros H. rewrite <-(sumQ_zero (seq 0 n)). by apply sumQ_seq_ext. Qed.

(** ** Monomials *)

Module MonomialFacts.
Import Monomial.

Lemma length_one N : length (one N) = N.
Proof. apply length_replicate. Qed.

Lemma length_var N i : length (var N i) = N.
Proof. unfold var. by rewrite length_fmap, length_seq. Qed.

Lemma length_mul m n : length m = length n → length (mul m n) = length m.
Proof. intros H. unfold mul. rewrite length_zip_with. lia. Qed.

Lemma exponent_one N k : exponent (one N) k = 0%nat.
Proof.
  unfold exponent, one. destruct (replicate N 0%nat !! k) as [e|] eqn:He; [|done].
  by apply lookup_replicate in He as [-> _].
Qed.

Lemma exponent_var N i k :
  (i < N)%nat → exponent (var N i) k = if decide (k = i) then 1%nat else 0%nat.
Proof.
  intros Hi. unfold exponent, var. rewrite list_lookup_fmap.
  destruct (decide (k < N)%nat) as [Hk|Hk].
  - by rewrite lookup_seq_lt.
  - rewrite lookup_seq_ge by lia. simpl. case_decide; [lia | done].
Qed.

Lemma exponent_mul m n k :
  length m = length n →
  exponent (mul m n) k = (exponent m k + exponent n k)%nat.
Proof.
  intros Hlen. unfold exponent, mul. rewrite lookup_zip_with.
  destruct (m !! k) as [a|] eqn:Hm, (n !! k) as [b|] eqn:Hn; simpl; try done.
  - apply lookup_ge_None in Hn. apply lookup_lt_Some in Hm. lia.
  - apply lookup_ge_None in Hm. apply lookup_lt_Some in Hn. lia.
Qed.

(** Exponent tuples of one length are equal when their exponents are. *)
Lemma ext m n :
  length m = length n → (∀ k, exponent m k = exponent n k) → m = n.
Proof.
  intros Hlen Hexp. apply list_eq. intros k. specialize (Hexp k).
  unfold exponent in Hexp.
  destruct (m !! k) as [a|] eqn:Hm, (n !! k) as [b|] eqn:Hn; simpl in *.
  - by subst.
  - apply lookup_ge_None in Hn. apply lookup_lt_Some in Hm. lia.
  - apply lookup_ge_None in Hm. apply lookup_lt_Some in Hn. lia.
  - done.
Qed.

Lemma mul_comm m n : mul m n = mul n m.
Proof.
  unfold mul. revert n. induction m as [|a m IH]; intros [|b n]; simpl; try done.
  by rewrite IH, Nat.add_comm.
Qed.

Lemma mul_one_r N m : length m = N → mul m (one N) = m.
Proof.
  intros Hm. apply ext.
  - rewrite length_mul; [done | by rewrite length_one].
  - intros k. rewrite exponent_mul, exponent_one by (by rewrite length_one). lia.
Qed.

Lemma mul_one_l N m : length m = N → mul (one N) m = m.
Proof. intros. rewrite mul_comm. by apply mul_one_r. Qed.

(** Reading an equation between monomials at one exponent. *)
Local Ltac at_index H k :=
  let Hk := fresh "Hk" in
  pose proof (f_equal (λ m, exponent m k) H) as Hk; simpl in Hk;
  rewrite ?exponent_mul, ?exponent_one in Hk by (by rewrite !length_var);
  rewrite ?exponent_var in Hk by done.

Local Ltac by_cases := repeat (first [lia | case_decide; subst]).

Lemma var_inj N i j : (i < N)%nat → (j < N)%nat → var N i = var N j → i = j.
Proof. intros Hi Hj H. at_index H i. by_cases. Qed.

Lemma var_ne_one N i : (i < N)%nat → var N i ≠ one N.
Proof. intros Hi H. at_index H i. by_cases. Qed.

Lemma mul_var_ne_one N i j :
  (i < N)%nat → (j < N)%nat → mul (var N i) (var N j) ≠ one N.
Proof. intros Hi Hj H. at_index H i. by_cases. Qed.

Lemma mul_var_ne_var N i j k :
  (i < N)%nat → (j < N)%nat → (k < N)%nat → mul (var N i) (var N j) ≠ var N k.
Proof. intros Hi Hj Hk H. at_index H i. at_index H j. by_cases. Qed.

(** Two products of two generators are equal exactly when they have the
    same factors. *)
Lemma mul_var_eq N p q i j :
  (p < N)%nat → (q < N)%nat → (i < N)%nat → (j < N)%nat →
  mul (var N p) (var N q) = mul (var N i) (var N j)
  ↔ (p = i ∧ q = j) ∨ (p = j ∧ q = i).
Proof.
  intros Hp Hq Hi Hj. split.
  - intros H. at_index H p. at_index H q. at_index H i. at_index H j. by_cases.
  - intros [[-> ->]|[-> ->]]; [done | apply mul_comm].
Qed.

End MonomialFacts.

(** ** Coefficients of expanded polynomials *)

Lemma ind_iff (P Q : Prop) `{Decision P, Decision Q} : (P ↔ Q) → ind P = ind Q.
Proof. intros HPQ. unfold ind. repeat case_decide; tauto. Qed.

Lemma ind_False (P : Prop) `{Decision P} : ¬ P → ind P = 0.
Proof. intros HP. unfold ind. by rewrite decide_False. Qed.

Lemma ind_True (P : Prop) `{Decision P} : P → ind P = 1.
Proof. intros HP. unfold ind. by rewrite decide_True. Qed.

Module PolyFacts.
Import Poly.

Lemma coeff_sumQ p m : coeff_monomial p m = sumQ (λ s, s.2 * ind (s.1 = m)) p.
Proof.
  unfold coeff_monomial, sumQ, ind.
  induction p as [|s p IH]; simpl; [done|]. rewrite IH. case_decide; ring.
Qed.

Lemma coeff_add p q m :
  coeff_monomial (add p q) m = coeff_monomial p m + coeff_monomial q m.
Proof. rewrite !coeff_sumQ. apply sumQ_app. Qed.

Lemma coeff_scale c p m : coeff_monomial (scale c p) m = c * coeff_monomial p m.
Proof.
  rewrite !coeff_sumQ. unfold scale. rewrite sumQ_fmap, <-sumQ_scale_l.
  apply sumQ_ext. intros s _; simpl. ring.
Qed.

Lemma coeff_const N c m : coeff_monomial (const N c) m = c * ind (Monomial.one N = m).
Proof. rewrite coeff_sumQ. simpl. ring. Qed.

Lemma coeff_var N i m : coeff_monomial (var N i) m = ind (Monomial.var N i = m).
Proof. rewrite coeff_sumQ. simpl. ring. Qed.

Lemma coeff_sum f N m :
  coeff_monomial (sum f N) m = sumQ (λ i, coeff_monomial (f i) m) (seq 0 N).
Proof.
  rewrite coeff_sumQ. unfold sum. rewrite sumQ_bind.
  apply sumQ_ext. intros i _. by rewrite coeff_sumQ.
Qed.

(** The coefficient of [m] in a product: every pair of terms whose
    monomials multiply to [m] contributes the product of its coefficients. *)
Lemma coeff_mul p q m :
  coeff_monomial (mul p q) m
  = sumQ (λ s, sumQ (λ u, s.2 * u.2 * ind (Monomial.mul s.1 u.1 = m)) q) p.
Proof.
  rewrite coeff_sumQ. unfold mul. rewrite sumQ_bind.
  apply sumQ_ext. intros s _. rewrite sumQ_fmap. by apply sumQ_ext.
Qed.

(** The terms of [Sum(X[i], (i, 0, N-1)) - 1]. *)
Lemma sumQ_sum_minus_one g N :
  sumQ g (add (sum (var N) N) (const N (-1)))
  = sumQ (λ i, g (Monomial.var N i, 1)) (seq 0 N) + g (Monomial.one N, -1).
Proof.
  unfold add. rewrite sumQ_app. unfold sum. rewrite sumQ_bind. simpl.
  f_equal; [|ring]. apply sumQ_ext. intros i _. simpl. ring.
Qed.

(** The coefficients of [(Sum(X[i], (i, 0, N-1)) - 1)**2]. *)
Lemma coeff_square N m :
  coeff_monomial (pow N (add (sum (var N) N) (const N (-1))) 2) m
  = sumQ (λ p,
      sumQ (λ q, ind (Monomial.mul (Monomial.var N p) (Monomial.var N q) = m)) (seq 0 N)
      - ind (Monomial.mul (Monomial.var N p) (Monomial.one N) = m)) (seq 0 N)
    - sumQ (λ q, ind (Monomial.mul (Monomial.one N) (Monomial.var N q) = m)) (seq 0 N)
    + ind (Monomial.mul (Monomial.one N) (Monomial.one N) = m).
Proof.
  cbn [pow]. rewrite coeff_mul, sumQ_sum_minus_one. cbn [fst snd].
  rewrite (sumQ_ext _ (λ p,
    sumQ (λ q, ind (Monomial.mul (Monomial.var N p) (Monomial.var N q) = m)) (seq 0 N)
    - ind (Monomial.mul (Monomial.var N p) (Monomial.one N) = m))).
  2:{ intros p _. rewrite sumQ_sum_minus_one. cbn [fst snd].
      rewrite (sumQ_ext _ (λ q,
        ind (Monomial.mul (Monomial.var N p) (Monomial.var N q) = m)))
        by (intros; ring).
      ring. }
  rewrite sumQ_sum_minus_one. cbn [fst snd].
  rewrite (sumQ_ext
    (λ q, -1 * 1 * ind (Monomial.mul (Monomial.one N) (Monomial.var N q) = m))
    (λ q, -1 * ind (Monomial.mul (Monomial.one N) (Monomial.var N q) = m)))
    by (intros; ring).
  rewrite sumQ_scale_l. ring.
Qed.

Lemma coeff_square_count N m :
  coeff_monomial (pow N (add (sum (var N) N) (const N (-1))) 2) m
  = pairs_to N m - 2 * gens_to N m + unit_to N m.
Proof.
  rewrite coeff_square, sumQ_sub. unfold pairs_to, gens_to, unit_to.
  rewrite (sumQ_ext
    (λ p, ind (Monomial.mul (Monomial.var N p) (Monomial.one N) = m))
    (λ p, ind (Monomial.var N p = m))).
  2:{ intros p _. by rewrite MonomialFacts.mul_one_r by apply MonomialFacts.length_var. }
  rewrite (sumQ_ext
    (λ q, ind (Monomial.mul (Monomial.one N) (Monomial.var N q) = m))
    (λ p, ind (Monomial.var N p = m))).
  2:{ intros p _. by rewrite MonomialFacts.mul_one_l by apply MonomialFacts.length_var. }
  rewrite MonomialFacts.mul_one_l by apply MonomialFacts.length_one. ring.
Qed.

(** The coefficients of the cost function, by counting. *)
Lemma coeff_cost_function N (c : nat → Qc) P m :
  coeff_monomial (cost_function N c P) m
  = sumQ (λ i, c i * ind (Monomial.var N i = m)) (seq 0 N)
    + P * (pairs_to N m - 2 * gens_to N m + unit_to N m).
Proof.
  unfold cost_function. rewrite coeff_add, coeff_scale, coeff_square_count, coeff_sum.
  f_equal. apply sumQ_ext. intros i _. by rewrite coeff_scale, coeff_var.
Qed.

End PolyFacts.

(** ** The coefficients of the cost polynomial *)

Section Coefficients.
Import Poly PolyFacts MonomialFacts.

Variables (N : nat) (c : nat → Qc) (P : Qc).

(** The constant term. *)
Lemma coeff_cost_function_one :
  coeff_monomial (cost_function N c P) (Monomial.one N) = P.
Proof.
  rewrite coeff_cost_function. unfold pairs_to, gens_to, unit_to.
  rewrite (sumQ_seq_zero (λ i, c i * _)).
  2:{ intros i Hi. rewrite ind_False; [ring | by apply var_ne_one]. }
  rewrite (sumQ_seq_zero (λ p, sumQ _ _)).
  2:{ intros p Hp. apply sumQ_seq_zero. intros q Hq.
      apply ind_False. by apply mul_var_ne_one. }
  rewrite (sumQ_seq_zero (λ p, ind _)).
  2:{ intros p Hp. apply ind_False. by apply var_ne_one. }
  rewrite ind_True by done. ring.
Qed.

(** The coefficient of [X[i]]. *)
Lemma coeff_cost_function_var i :
  (i < N)%nat → coeff_monomial (cost_function N c P) (Monomial.var N i) = c i - 2 * P.
Proof.
  intros Hi. rewrite coeff_cost_function. unfold pairs_to, gens_to, unit_to.
  assert (∀ p, (p < N)%nat →
    ind (Monomial.var N p = Monomial.var N i) = ind (p = i)) as Hgen.
  { intros p Hp. apply ind_iff. split; [by apply var_inj | by intros ->]. }
  rewrite (sumQ_seq_ext (λ k, c k * _) (λ k, c k * ind (k = i)))
    by (intros; by rewrite Hgen).
  rewrite sumQ_select_seq by done.
  rewrite (sumQ_seq_zero (λ p, sumQ _ _)).
  2:{ intros p Hp. apply sumQ_seq_zero. intros q Hq.
      apply ind_False. by apply mul_var_ne_var. }
  rewrite (sumQ_seq_ext (λ p, ind _) (λ p, ind (p = i))) by done.
  rewrite sumQ_ind_seq by done.
  rewrite ind_False; [ring|]. intros H. by apply (var_ne_one N i).
Qed.

(** No single generator and no empty product gives a product of two
    generators. *)
Lemma coeff_cost_function_mul i j :
  (i < N)%nat → (j < N)%nat →
  coeff_monomial (cost_function N c P)
    (Monomial.mul (Monomial.var N i) (Monomial.var N j))
  = P * pairs_to N (Monomial.mul (Monomial.var N i) (Monomial.var N j)).
Proof.
  intros Hi Hj. rewrite coeff_cost_function. unfold gens_to, unit_to.
  rewrite (sumQ_seq_zero (λ k, c k * _)).
  2:{ intros k Hk. rewrite ind_False; [ring|]. intros H. by apply (mul_var_ne_var N i j k). }
  rewrite (sumQ_seq_zero (λ p, ind _)).
  2:{ intros k Hk. apply ind_False. intros H. by apply (mul_var_ne_var N i j k). }
  rewrite ind_False; [ring|]. intros H. by apply (mul_var_ne_one N i j).
Qed.

Lemma ind_pair (p q i j : nat) :
  ind ((p = i ∧ q = j) ∨ (p = j ∧ q = i))
  = ind (p = i) * ind (q = j) + (if decide (i = j) then 0 else ind (p = j) * ind (q = i)).
Proof.
  unfold ind. repeat case_decide; first [ring | exfalso; lia].
Qed.

Lemma pairs_to_mul i j :
  (i < N)%nat → (j < N)%nat →
  pairs_to N (Monomial.mul (Monomial.var N i) (Monomial.var N j))
  = if decide (i = j) then 1 else 2.
Proof.
  intros Hi Hj. unfold pairs_to.
  rewrite (sumQ_seq_ext _
    (λ p, ind (p = i) + (if decide (i = j) then 0 else ind (p = j)))).
  - rewrite sumQ_add, sumQ_ind_seq by done.
    case_decide; [rewrite sumQ_zero | rewrite sumQ_ind_seq by done]; ring.
  - intros p Hp.
    rewrite (sumQ_seq_ext _
      (λ q, ind (p = i) * ind (q = j)
            + (if decide (i = j) then 0 else ind (p = j) * ind (q = i)))).
    + rewrite sumQ_add, sumQ_scale_l, sumQ_ind_seq by done.
      case_decide; [rewrite sumQ_zero | rewrite sumQ_scale_l, sumQ_ind_seq by done]; ring.
    + intros q Hq. rewrite <-ind_pair. apply ind_iff. by apply mul_var_eq.
Qed.

(** The coefficient of [X[i]**2]. *)
Lemma coeff_cost_function_square i :
  (i < N)%nat →
  coeff_monomial (cost_function N c P)
    (Monomial.mul (Monomial.var N i) (Monomial.var N i)) = P.
Proof.
  intros Hi. rewrite coeff_cost_function_mul, pairs_to_mul by done.
  rewrite decide_True by done. ring.
Qed.

(** The coefficient of [X[i]*X[j]] for distinct [i] and [j]. *)
Lemma coeff_cost_function_cross i j :
  (i < N)%nat → (j < N)%nat → i ≠ j →
  coeff_monomial (cost_function N c P)
    (Monomial.mul (Monomial.var N i) (Monomial.var N j)) = 2 * P.
Proof.
  intros Hi Hj Hij. rewrite coeff_cost_function_mul, pairs_to_mul by done.
  rewrite decide_False by done. ring.
Qed.

End Coefficients.

(** ** Dictionaries built by a comprehension *)

Section Dict.
Context `{Countable K} {V : Type}.
Implicit Types items : list (K * V).

Lemma dict_list_to_map items : dict items = list_to_map (reverse items).
Proof.
  unfold dict. induction items as [|kv items IH] using rev_ind; [done|].
  by rewrite foldl_snoc, reverse_snoc, IH.
Qed.

Lemma dict_to_list items :
  NoDup (items.*1) → map_to_list (dict items) ≡ₚ items.
Proof.
  intros Hnd. rewrite dict_list_to_map, map_to_list_to_map.
  - apply reverse_Permutation.
  - by rewrite fmap_reverse, reverse_Permutation.
Qed.

Lemma dict_lookup items k v :
  NoDup (items.*1) → (k, v) ∈ items → dict items !! k = Some v.
Proof.
  intros Hnd Hkv. rewrite dict_list_to_map. apply elem_of_list_to_map_1.
  - by rewrite fmap_reverse, reverse_Permutation.
  - by rewrite elem_of_reverse.
Qed.

Lemma dict_lookup_None items k : k ∉ items.*1 → dict items !! k = None.
Proof.
  intros Hk. rewrite dict_list_to_map. apply not_elem_of_list_to_map_1.
  by rewrite fmap_reverse, elem_of_reverse.
Qed.

Lemma dict_size items : NoDup (items.*1) → size (dict items) = length items.
Proof. intros Hnd. by rewrite <-length_map_to_list, dict_to_list. Qed.

End Dict.

(** ** The index pairs of the comprehensions *)

Lemma elem_of_upper_pairs n i j : (i, j) ∈ upper_pairs n ↔ (i ≤ j < n)%nat.
Proof.
  unfold upper_pairs. rewrite list_elem_of_bind. split.
  - intros (i' & Hj & Hi'). apply list_elem_of_bind in Hj as (j' & Hij & Hj').
    apply list_elem_of_singleton in Hij. simplify_eq.
    apply elem_of_seq in Hi', Hj'. lia.
  - intros Hij. exists i. split; [|apply elem_of_seq; lia].
    apply list_elem_of_bind. exists j. split; [by apply list_elem_of_singleton|].
    apply elem_of_seq. lia.
Qed.

Lemma NoDup_upper_pairs n : NoDup (upper_pairs n).
Proof.
  unfold upper_pairs. apply NoDup_bind; [| |apply NoDup_seq].
  - intros i1 i2 [i j] _ _ Hi1 Hi2.
    apply list_elem_of_bind in Hi1 as (? & ?%list_elem_of_singleton & _).
    apply list_elem_of_bind in Hi2 as (? & ?%list_elem_of_singleton & _).
    congruence.
  - intros i _. apply NoDup_bind; [| |apply NoDup_seq].
    + intros j1 j2 ij _ _ ?%list_elem_of_singleton ?%list_elem_of_singleton.
      congruence.
    + intros j _. apply NoDup_singleton.
Qed.

Lemma length_row (a : nat) (l : list nat) : length (j ← l; [(a, j)]) = length l.
Proof. induction l as [|j l IH]; csimpl; [done | by rewrite IH]. Qed.

Lemma length_upper_rows n a k :
  (2 * length (i ← seq a k; j ← seq i (n - i); [(i, j)]) + k * (k + 1)
   = 2 * k * (n - a) + 2 * k)%nat ∨ (n < a + k)%nat.
Proof.
  destruct (decide (n < a + k)%nat) as [|Hle]; [by right | left].
  revert a Hle. induction k as [|k IH]; intros a Hle; csimpl; [done|].
  rewrite length_app. specialize (IH (S a) ltac:(lia)).
  rewrite length_row, length_seq. nia.
Qed.

Lemma length_upper_pairs n : length (upper_pairs n) = (n + n * (n - 1) / 2)%nat.
Proof.
  unfold upper_pairs. destruct (length_upper_rows n 0 n) as [Hlen|]; [|lia].
  assert (n * (n - 1) = 2 * (length (i ← seq 0 n; j ← seq i (n - i); [(i, j)]) - n))%nat
    as -> by nia.
  rewrite Nat.mul_comm, Nat.div_mul by done. nia.
Qed.

(** ** The QUBO dictionary read off a polynomial *)

Section QuboItems.
Variables (p : Poly.t) (n : nat).

Lemma Qubo_items_keys : (Qubo_items p n).*1 = upper_pairs n.
Proof.
  unfold Qubo_items. rewrite <-list_fmap_compose.
  rewrite <-(list_fmap_id (upper_pairs n)) at 2. by apply list_fmap_ext.
Qed.

Lemma NoDup_Qubo_items : NoDup (Qubo_items p n).*1.
Proof. rewrite Qubo_items_keys. apply NoDup_upper_pairs. Qed.

Lemma Qubo_items_lookup i j :
  (i ≤ j < n)%nat → dict (Qubo_items p n) !! (i, j) = Some (Qubo_entry p n (i, j)).
Proof.
  intros Hij. apply dict_lookup; [apply NoDup_Qubo_items|].
  unfold Qubo_items. apply list_elem_of_fmap. exists (i, j).
  split; [done | by apply elem_of_upper_pairs].
Qed.

Lemma Qubo_items_lookup_None i j :
  ¬ (i ≤ j < n)%nat → dict (Qubo_items p n) !! (i, j) = None.
Proof.
  intros Hij. apply dict_lookup_None. rewrite Qubo_items_keys.
  by rewrite elem_of_upper_pairs.
Qed.

Lemma Qubo_items_size : size (dict (Qubo_items p n)) = (n + n * (n - 1) / 2)%nat.
Proof.
  rewrite dict_size by apply NoDup_Qubo_items.
  unfold Qubo_items. by rewrite length_fmap, length_upper_pairs.
Qed.

End QuboItems.

(** The objective of a dictionary is the sum over its items. *)
Lemma qubo_energy_dict (items : list ((nat * nat) * Qc)) x :
  NoDup (items.*1) →
  qubo_energy (dict items) x
  = sumQ (λ kv, kv.2 * bit x kv.1.1 * bit x kv.1.2) items.
Proof.
  intros Hnd. unfold qubo_energy. rewrite map_fold_foldr.
  rewrite <-(sumQ_permutation _ _ _ (dict_to_list items Hnd)).
  unfold sumQ. induction (map_to_list (dict items)) as [|[ij v] l IH]; simpl; [done|].
  by rewrite IH.
Qed.

Lemma sumQ_upper_pairs (g : nat * nat → Qc) n :
  sumQ g (upper_pairs n) = sumQ (λ i, sumQ (λ j, g (i, j)) (seq i (n - i))) (seq 0 n).
Proof.
  unfold upper_pairs. rewrite sumQ_bind. apply sumQ_ext. intros i _.
  rewrite sumQ_bind. apply sumQ_ext. intros j _. simpl. ring.
Qed.

Lemma qubo_energy_items p n x :
  qubo_energy (dict (Qubo_items p n)) x
  = sumQ (λ i, sumQ (λ j, Qubo_entry p n (i, j) * bit x i * bit x j) (seq i (n - i)))
      (seq 0 n).
Proof.
  rewrite qubo_energy_dict by apply NoDup_Qubo_items.
  unfold Qubo_items. by rewrite sumQ_fmap, sumQ_upper_pairs.
Qed.

Lemma bit_binary x i : bit x i * bit x i = bit x i.
Proof. unfold bit. destruct (default false (x !! i)); ring. Qed.

(** The square of a sum: squares and twice the products of distinct pairs. *)
Lemma square_sumQ (f : nat → Qc) a k :
  sumQ f (seq a k) * sumQ f (seq a k)
  = sumQ (λ i, f i * f i) (seq a k)
    + 2 * sumQ (λ i, f i * sumQ f (seq (S i) (a + k - S i))) (seq a k).
Proof.
  revert a. induction k as [|k IH]; intros a; [simpl; ring|]. cbn [seq sumQ foldr].
  fold (sumQ f (seq (S a) k)). fold (sumQ (λ i, f i * f i) (seq (S a) k)).
  fold (sumQ (λ i, f i * sumQ f (seq (S i) (a + S k - S i))) (seq (S a) k)).
  rewrite (sumQ_ext (λ i, f i * sumQ f (seq (S i) (a + S k - S i)))
                    (λ i, f i * sumQ f (seq (S i) (S a + k - S i)))).
  2:{ intros i _. do 3 f_equal. lia. }
  replace (a + S k - S a)%nat with k by lia.
  specialize (IH (S a)).
  set (s := sumQ f (seq (S a) k)) in *.
  set (q := sumQ (λ i, f i * f i) (seq (S a) k)) in *.
  set (t := sumQ (λ i, f i * sumQ f (seq (S i) (S a + k - S i))) (seq (S a) k)) in *.
  replace ((f a + s) * (f a + s)) with (f a * f a + 2 * (f a * s) + s * s) by ring.
  rewrite IH. ring.
Qed.

(** The objective of the QUBO dictionary of the cost function, in closed
    form, at a binary point. *)
Lemma qubo_energy_cost_function N (c : nat → Qc) P x :
  qubo_energy (dict (Qubo_items (cost_function N c P) N)) x
  = sumQ (λ i, c i * bit x i) (seq 0 N)
    + P * (sumQ (bit x) (seq 0 N) - 1) ^ 2 - P.
Proof.
  rewrite qubo_energy_items.
  rewrite (sumQ_ext _ (λ i,
    (c i - P) * bit x i + 2 * P * (bit x i * sumQ (bit x) (seq (S i) (N - S i))))).
  - rewrite sumQ_add, sumQ_scale_l.
    rewrite (sumQ_ext (λ i, (c i - P) * bit x i) (λ i, c i * bit x i - P * bit x i))
      by (intros; ring).
    rewrite sumQ_sub, sumQ_scale_l.
    pose proof (square_sumQ (bit x) 0 N) as Hsq. cbn [Nat.add] in Hsq.
    rewrite (sumQ_ext (λ i, bit x i * bit x i) (bit x)) in Hsq
      by (intros; apply bit_binary).
    cbn [Qcpower].
    set (s := sumQ (bit x) (seq 0 N)) in *.
    set (t := sumQ (λ i, bit x i * sumQ (bit x) (seq (S i) (N - S i))) (seq 0 N)) in *.
    replace ((s - 1) * ((s - 1) * 1)) with (s * s - 2 * s + 1) by ring.
    rewrite Hsq. ring.
  - intros i Hi%elem_of_seq.
    replace (N - i)%nat with (S (N - S i)) by lia. cbn [seq sumQ foldr].
    fold (sumQ (λ j, Qubo_entry (cost_function N c P) N (i, j) * bit x i * bit x j)
            (seq (S i) (N - S i))).
    rewrite (sumQ_ext _ (λ j, 2 * P * bit x i * bit x j)).
    + unfold Qubo_entry. cbn [fst snd]. rewrite decide_True by done.
      rewrite coeff_cost_function_square, coeff_cost_function_var by lia.
      rewrite sumQ_scale_l.
      replace ((P + (c i - 2 * P)) * bit x i * bit x i)
        with ((c i - P) * (bit x i * bit x i)) by ring.
      rewrite bit_binary. ring.
    + intros j Hj%elem_of_seq. unfold Qubo_entry. cbn [fst snd].
      rewrite decide_False by lia. rewrite coeff_cost_function_cross by lia. ring.
Qed.

(** ** The value of the cost polynomial *)

Module EvalFacts.
Import MonomialFacts.

Lemma Qcpower_add (q : Qc) (a b : nat) : q ^ (a + b) = q ^ a * q ^ b.
Proof. induction a as [|a IH]; simpl; [ring | rewrite IH; ring]. Qed.

Lemma eval_from_mul k b m n :
  length m = length n →
  Monomial.eval_from k b (Monomial.mul m n)
  = Monomial.eval_from k b m * Monomial.eval_from k b n.
Proof.
  unfold Monomial.mul. revert k n.
  induction m as [|e m IH]; intros k [|e' n] Hlen; simplify_eq/=; [done|].
  rewrite IH by done. rewrite Qcpower_add. ring.
Qed.

Lemma eval_from_one k b N : Monomial.eval_from k b (Monomial.one N) = 1.
Proof.
  unfold Monomial.one. revert k.
  induction N as [|N IH]; intros k; simpl; [done | rewrite IH; ring].
Qed.

Lemma eval_from_var k b n i :
  Monomial.eval_from k b ((λ j, if decide (j = i) then 1%nat else 0%nat) <$> seq k n)
  = if decide (k ≤ i < k + n)%nat then b i else 1.
Proof.
  revert k. induction n as [|n IH]; intros k; csimpl.
  - rewrite decide_False by lia. done.
  - rewrite IH. repeat case_decide; subst; simpl; first [ring | exfalso; lia].
Qed.

Lemma eval_var b N i : (i < N)%nat → Monomial.eval b (Monomial.var N i) = b i.
Proof.
  intros Hi. unfold Monomial.eval, Monomial.var.
  rewrite eval_from_var, decide_True by lia. done.
Qed.

Import Poly.

Lemma eval_sumQ b p : eval b p = sumQ (λ s, s.2 * Monomial.eval b s.1) p.
Proof. done. Qed.

Lemma eval_add b p q : eval b (add p q) = eval b p + eval b q.
Proof. rewrite !eval_sumQ. apply sumQ_app. Qed.

Lemma eval_scale b c p : eval b (scale c p) = c * eval b p.
Proof.
  rewrite !eval_sumQ. unfold scale. rewrite sumQ_fmap, <-sumQ_scale_l.
  apply sumQ_ext. intros s _. simpl. ring.
Qed.

Lemma eval_sum b f N : eval b (sum f N) = sumQ (λ i, eval b (f i)) (seq 0 N).
Proof. rewrite eval_sumQ. unfold sum. by rewrite sumQ_bind. Qed.

Lemma eval_const b N c : eval b (const N c) = c.
Proof.
  rewrite eval_sumQ. simpl. unfold Monomial.eval. rewrite eval_from_one. ring.
Qed.

Lemma eval_poly_var b N i : (i < N)%nat → eval b (var N i) = b i.
Proof. intros Hi. rewrite eval_sumQ. simpl. rewrite eval_var by done. ring. Qed.

Lemma eval_mul b N p q : wf N p → wf N q → eval b (mul p q) = eval b p * eval b q.
Proof.
  intros Hp Hq. rewrite !eval_sumQ. unfold mul. rewrite sumQ_bind.
  rewrite <-sumQ_scale_r. apply sumQ_ext. intros s Hs.
  rewrite sumQ_fmap, <-sumQ_scale_l. apply sumQ_ext. intros u Hu. simpl.
  unfold Monomial.eval. rewrite eval_from_mul; [ring|].
  unfold wf in *. rewrite list.Forall_forall in Hp, Hq.
  by rewrite (Hp s Hs), (Hq u Hu).
Qed.

Lemma wf_sum_minus_one N : wf N (add (sum (var N) N) (const N (-1))).
Proof.
  unfold wf, add, sum, var, const. apply list.Forall_app. split.
  - apply list.Forall_forall. intros s (i & Hs & _)%list_elem_of_bind.
    apply list_elem_of_singleton in Hs as ->. apply length_var.
  - apply list.Forall_singleton. apply length_one.
Qed.

(** The cost polynomial evaluates to the cost function it expands. *)
Lemma eval_cost_function b N (c : nat → Qc) P :
  eval b (cost_function N c P)
  = sumQ (λ i, c i * b i) (seq 0 N) + P * (sumQ b (seq 0 N) - 1) ^ 2.
Proof.
  unfold cost_function. rewrite eval_add, eval_scale, eval_sum. cbn [pow].
  rewrite (eval_mul b N) by apply wf_sum_minus_one.
  rewrite eval_add, eval_sum, eval_const. cbn [Qcpower]. rewrite Qcmult_1_r.
  rewrite (sumQ_ext (λ i, eval b (var N i)) b).
  2:{ intros i Hi%elem_of_seq. apply eval_poly_var. lia. }
  f_equal. apply sumQ_ext. intros i Hi%elem_of_seq.
  rewrite eval_scale, eval_poly_var by lia. done.
Qed.

End EvalFacts.

(** ** Assignments with no, one or two variables set *)

Lemma bit_one_hot N k i : (i < N)%nat → bit (one_hot N k) i = ind (i = k).
Proof.
  intros Hi. unfold bit, one_hot, ind.
  rewrite list_lookup_fmap, lookup_seq_lt by done. simpl.
  rewrite bool_decide_decide. by destruct (decide (i = k)).
Qed.

Lemma bit_two_hot N k l i :
  (i < N)%nat → k ≠ l → bit (two_hot N k l) i = ind (i = k) + ind (i = l).
Proof.
  intros Hi Hkl. unfold bit, two_hot, ind.
  rewrite list_lookup_fmap, lookup_seq_lt by done. simpl.
  rewrite bool_decide_decide.
  destruct (decide (i = k ∨ i = l)), (decide (i = k)), (decide (i = l));
    first [ring | exfalso; lia].
Qed.

Lemma bit_all_zero N i : bit (all_zero N) i = 0.
Proof.
  unfold bit, all_zero. destruct (replicate N false !! i) as [b|] eqn:Hb; [|done].
  by apply lookup_replicate in Hb as [-> _].
Qed.

Section HotSums.
Variables (N : nat) (c : nat → Qc).

Lemma sum_bits_one_hot k :
  (k < N)%nat → sumQ (bit (one_hot N k)) (seq 0 N) = 1.
Proof.
  intros Hk. rewrite <-(sumQ_ind_seq k N Hk). apply sumQ_seq_ext.
  intros i Hi. by apply bit_one_hot.
Qed.

Lemma sum_costs_one_hot k :
  (k < N)%nat → sumQ (λ i, c i * bit (one_hot N k) i) (seq 0 N) = c k.
Proof.
  intros Hk. rewrite <-(sumQ_select_seq c k N Hk). apply sumQ_seq_ext.
  intros i Hi. by rewrite bit_one_hot.
Qed.

Lemma sum_bits_two_hot k l :
  (k < N)%nat → (l < N)%nat → k ≠ l → sumQ (bit (two_hot N k l)) (seq 0 N) = 2.
Proof.
  intros Hk Hl Hkl.
  rewrite (sumQ_seq_ext _ (λ i, ind (i = k) + ind (i = l)))
    by (intros; by apply bit_two_hot).
  rewrite sumQ_add, !sumQ_ind_seq by done. done.
Qed.

Lemma sum_costs_two_hot k l :
  (k < N)%nat → (l < N)%nat → k ≠ l →
  sumQ (λ i, c i * bit (two_hot N k l) i) (seq 0 N) = c k + c l.
Proof.
  intros Hk Hl Hkl.
  rewrite (sumQ_seq_ext _ (λ i, c i * ind (i = k) + c i * ind (i = l))).
  - rewrite sumQ_add, !sumQ_select_seq by done. done.
  - intros i Hi. rewrite bit_two_hot by done. ring.
Qed.

Lemma sum_bits_all_zero : sumQ (bit (all_zero N)) (seq 0 N) = 0.
Proof. apply sumQ_seq_zero. intros. apply bit_all_zero. Qed.

Lemma sum_costs_all_zero : sumQ (λ i, c i * bit (all_zero N) i) (seq 0 N) = 0.
Proof. apply sumQ_seq_zero. intros. rewrite bit_all_zero. ring. Qed.

End HotSums.

(** ** The QUBO dictionary of the notebook *)

Section QuboFacts.
Variables (C : nat → Qc) (N : nat) (TestC : list Qc) (P : Qc).

Lemma cost_dict_lookup k ck : TestC !! k = Some ck → cost_dict C TestC k = ck.
Proof. intros Hk. unfold cost_dict. by rewrite Hk. Qed.

Lemma Qubo_energy x :
  qubo_energy (Qubo C N TestC P) x
  = sumQ (λ i, cost_dict C TestC i * bit x i) (seq 0 N)
    + P * (sumQ (bit x) (seq 0 N) - 1) ^ 2 - P.
Proof. apply qubo_energy_cost_function. Qed.

Lemma Qubo_energy_one_hot k :
  (k < N)%nat → qubo_energy (Qubo C N TestC P) (one_hot N k) = cost_dict C TestC k - P.
Proof.
  intros Hk. rewrite Qubo_energy, sum_costs_one_hot, sum_bits_one_hot by done.
  cbn [Qcpower]. ring.
Qed.

Lemma Qubo_energy_all_zero : qubo_energy (Qubo C N TestC P) (all_zero N) = 0.
Proof.
  rewrite Qubo_energy, sum_costs_all_zero, sum_bits_all_zero. cbn [Qcpower]. ring.
Qed.

Lemma Qubo_energy_two_hot k l :
  (k < N)%nat → (l < N)%nat → k ≠ l →
  qubo_energy (Qubo C N TestC P) (two_hot N k l)
  = cost_dict C TestC k + cost_dict C TestC l.
Proof.
  intros Hk Hl Hkl. rewrite Qubo_energy, sum_costs_two_hot, sum_bits_two_hot by done.
  cbn [Qcpower]. ring.
Qed.

(** The polynomial and the dictionary differ by the constant term. *)
Lemma eval_cost_poly x :
  Poly.eval (bit x) (cost_poly C N TestC P) = qubo_energy (Qubo C N TestC P) x + P.
Proof.
  unfold cost_poly, num_qubits. rewrite EvalFacts.eval_cost_function, Qubo_energy. ring.
Qed.

End QuboFacts.

(** ** The quadratic program *)

Global Instance var_name_inj : Inj (=) (=) var_name.
Proof.
  intros i j Hij. unfold var_name in Hij.
  apply (inj (String.app "X_")) in Hij. by apply (inj pretty) in Hij.
Qed.

Lemma var_index_var_name n i :
  (i < n)%nat → var_index (var_name <$> seq 0 n) (var_name i) = Some i.
Proof.
  intros Hi. unfold var_index.
  assert (list_find (λ v, v = var_name i) (var_name <$> seq 0 n)
          = Some (i, var_name i)) as ->; [|done].
  apply list_find_Some. split; [by rewrite list_lookup_fmap, lookup_seq_lt|].
  split; [done|]. intros j y Hj Hlt ->.
  rewrite list_lookup_fmap in Hj. apply fmap_Some in Hj as (j' & Hj' & Heq).
  apply lookup_seq in Hj' as [-> _]. apply (inj var_name) in Heq. lia.
Qed.

Section QuadraticProgram.
Variables (vars : list string) (x : list bool).

Lemma quadratic_step_comm ab1 v1 ab2 v2 acc :
  quadratic_step vars x ab1 v1 (quadratic_step vars x ab2 v2 acc)
  = quadratic_step vars x ab2 v2 (quadratic_step vars x ab1 v1 acc).
Proof.
  unfold quadratic_step.
  destruct (var_index vars ab1.1), (var_index vars ab1.2),
    (var_index vars ab2.1), (var_index vars ab2.2), acc; simpl; try done.
  f_equal. ring.
Qed.

Lemma quadratic_value_dict (items : list ((string * string) * Qc)) :
  NoDup (items.*1) →
  quadratic_value vars x (dict items)
  = foldr (uncurry (quadratic_step vars x)) (Some 0) items.
Proof.
  intros Hnd. unfold quadratic_value. rewrite map_fold_foldr.
  apply (foldr_permutation_proper (=) (uncurry (quadratic_step vars x)) (Some 0)).
  - intros [ab1 v1] [ab2 v2] acc. apply quadratic_step_comm.
  - by apply dict_to_list.
Qed.

End QuadraticProgram.

(** The quadratic terms of a program whose variables are [X_0 .. X_(n-1)]
    and whose coefficients are given by index pairs below [n]. *)
Lemma quadratic_value_named n x (g : nat * nat → Qc) (L : list (nat * nat)) :
  Forall (λ ij, (ij.1 < n)%nat ∧ (ij.2 < n)%nat) L →
  foldr (uncurry (quadratic_step (var_name <$> seq 0 n) x)) (Some 0)
    ((λ ij, ((var_name ij.1, var_name ij.2), g ij)) <$> L)
  = Some (sumQ (λ ij, g ij * bit x ij.1 * bit x ij.2) L).
Proof.
  induction 1 as [|[i j] L [Hi Hj] _ IH]; csimpl; [done|].
  rewrite IH. unfold quadratic_step at 1. cbn [fst snd].
  by rewrite !var_index_var_name by done.
Qed.

Lemma NoDup_named_pairs n (g : nat * nat → Qc) :
  NoDup ((λ ij, ((var_name ij.1, var_name ij.2), g ij)) <$> upper_pairs n).*1.
Proof.
  rewrite <-list_fmap_compose. apply NoDup_fmap_2_strong; [|apply NoDup_upper_pairs].
  intros [i j] [i' j'] _ _ Heq.
  pose proof (f_equal fst Heq) as Hi. pose proof (f_equal snd Heq) as Hj.
  cbn [fst snd compose] in Hi, Hj. apply (inj var_name) in Hi, Hj. congruence.
Qed.

(** Only the first pair of a row of the comprehension is diagonal. *)
Lemma sumQ_upper_pairs_diagonal (L : nat → Qc) (b : nat → Qc) n :
  (∀ i, b i * b i = b i) →
  sumQ (λ ij, (if decide (ij.1 = ij.2) then L ij.1 else 0) * b ij.1 * b ij.2)
    (upper_pairs n)
  = sumQ (λ i, L i * b i) (seq 0 n).
Proof.
  intros Hb. rewrite sumQ_upper_pairs. apply sumQ_seq_ext. intros i Hi. cbn [fst snd].
  replace (n - i)%nat with (S (n - S i)) by lia. cbn [seq sumQ foldr].
  rewrite decide_True by done.
  fold (sumQ (λ j, (if decide (i = j) then L i else 0) * b i * b j) (seq (S i) (n - S i))).
  rewrite (sumQ_ext _ (λ _, 0)).
  - rewrite sumQ_zero, <-Qcmult_assoc, Hb. ring.
  - intros j Hj%elem_of_seq. rewrite decide_False by lia. ring.
Qed.

(** The objective of the QUBO dictionary read off a polynomial, split into
    the terms that come from [X[i]] and those that come from [X[i]*X[j]]. *)
Lemma qubo_energy_split p n x :
  qubo_energy (dict (Qubo_items p n)) x
  = sumQ (λ i, Poly.coeff_monomial p (Monomial.var n i) * bit x i) (seq 0 n)
    + sumQ (λ ij,
        Poly.coeff_monomial p (Monomial.mul (Monomial.var n ij.1) (Monomial.var n ij.2))
        * bit x ij.1 * bit x ij.2) (upper_pairs n).
Proof.
  rewrite qubo_energy_dict by apply NoDup_Qubo_items.
  unfold Qubo_items, Qubo_entry. rewrite sumQ_fmap.
  trans (sumQ (λ ij,
    Poly.coeff_monomial p (Monomial.mul (Monomial.var n ij.1) (Monomial.var n ij.2))
      * bit x ij.1 * bit x ij.2
    + (if decide (ij.1 = ij.2) then Poly.coeff_monomial p (Monomial.var n ij.1) else 0)
      * bit x ij.1 * bit x ij.2) (upper_pairs n));
    [apply sumQ_ext; intros ij _; unfold compose; cbn [fst snd]; ring|].
  rewrite sumQ_add.
  rewrite (sumQ_upper_pairs_diagonal (λ i, Poly.coeff_monomial p (Monomial.var n i))
             (bit x) n) by apply bit_binary.
  ring.
Qed.

(** The objective of the quadratic program: the same terms, with the
    coefficients of [X[i]] gone through [int(.)]. *)
Lemma qp_objective_split C N TestC P x :
  let p := cost_poly C N TestC P in
  qp_objective (qiskit_cost_function C N TestC P) x
  = Some (sumQ (λ i, int (Poly.coeff_monomial p (Monomial.var N i)) * bit x i) (seq 0 N)
          + sumQ (λ ij,
              Poly.coeff_monomial p
                (Monomial.mul (Monomial.var N ij.1) (Monomial.var N ij.2))
              * bit x ij.1 * bit x ij.2) (upper_pairs N)).
Proof.
  cbn zeta. unfold qp_objective, qiskit_cost_function, num_qubits.
  cbn [qp_variables qp_linear qp_quadratic].
  rewrite quadratic_value_dict by apply NoDup_named_pairs.
  rewrite quadratic_value_named.
  2:{ apply list.Forall_forall. intros [i j] Hij%elem_of_upper_pairs. simpl. lia. }
  cbn [mbind option_bind]. do 2 f_equal.
  unfold linear_value. rewrite length_fmap, length_seq.
  apply sumQ_seq_ext. intros i Hi. by rewrite list_lookup_fmap, lookup_seq_lt.
Qed.

(** The two objectives differ by what [int(.)] takes off the coefficients
    of the [X[i]]. *)
Lemma qp_objective_Qubo_energy C N TestC P x :
  let p := cost_poly C N TestC P in
  qp_objective (qiskit_cost_function C N TestC P) x
  = Some (qubo_energy (Qubo C N TestC P) x
          + sumQ (λ i,
              (int (Poly.coeff_monomial p (Monomial.var N i))
               - Poly.coeff_monomial p (Monomial.var N i)) * bit x i) (seq 0 N)).
Proof.
  cbn zeta. rewrite qp_objective_split. cbn zeta. f_equal.
  unfold Qubo, num_qubits. rewrite qubo_energy_split.
  rewrite (sumQ_ext (λ i, (int _ - _) * bit x i)
    (λ i, int (Poly.coeff_monomial (cost_poly C N TestC P) (Monomial.var N i)) * bit x i
          - Poly.coeff_monomial (cost_poly C N TestC P) (Monomial.var N i) * bit x i))
    by (intros; ring).
  rewrite sumQ_sub. ring.
Qed.

(** [int(.)] leaves an integer as it is. *)
Lemma int_Qc_of_Z z : int (Qc_of_Z z) = Qc_of_Z z.
Proof. unfold int. simpl. by rewrite Z.quot_1_r. Qed.

(** On integer costs and an integer penalty the two objectives agree. *)
Lemma qp_objective_integers C N (zs : list Z) (zp : Z) x :
  length zs = N →
  qp_objective (qiskit_cost_function C N (Qc_of_Z <$> zs) (Qc_of_Z zp)) x
  = Some (qubo_energy (Qubo C N (Qc_of_Z <$> zs) (Qc_of_Z zp)) x).
Proof.
  intros Hlen. rewrite qp_objective_Qubo_energy. cbn zeta. f_equal.
  rewrite sumQ_seq_zero; [ring|]. intros i Hi.
  unfold cost_poly, num_qubits. rewrite coeff_cost_function_var by done.
  destruct (lookup_lt_is_Some_2 zs i) as [z Hz]; [lia|].
  rewrite (cost_dict_lookup _ _ _ (Qc_of_Z z)) by (by rewrite list_lookup_fmap, Hz).
  replace (Qc_of_Z z - 2 * Qc_of_Z zp) with (Qc_of_Z (z - 2 * zp)).
  - rewrite int_Qc_of_Z. ring.
  - by rewrite Z2Qc_inj_sub, Z2Qc_inj_mul, Z2Qc_inj_2.
Qed.

Lemma qiskit_linear_lookup C N TestC P i :
  (i < N)%nat →
  qp_linear (qiskit_cost_function C N TestC P) !! i
  = Some (int (Poly.coeff_monomial (cost_poly C N TestC P) (Monomial.var N i))).
Proof.
  intros Hi. unfold qiskit_cost_function, num_qubits. cbn [qp_linear].
  by rewrite list_lookup_fmap, lookup_seq_lt.
Qed.

Lemma qiskit_quadratic_lookup C N TestC P i j :
  (i ≤ j < N)%nat →
  qp_quadratic (qiskit_cost_function C N TestC P) !! (var_name i, var_name j)
  = Some (Poly.coeff_monomial (cost_poly C N TestC P)
            (Monomial.mul (Monomial.var N i) (Monomial.var N j))).
Proof.
  intros Hij. unfold qiskit_cost_function, num_qubits. cbn [qp_quadratic].
  apply dict_lookup; [apply NoDup_named_pairs|].
  apply list_elem_of_fmap. exists (i, j). split; [done | by apply elem_of_upper_pairs].
Qed.

(** ** The cells of the notebook on its data *)

(** The QUBO matrix of the visualization cell: [-P + C[i]] on the diagonal,
    [2*P] above it. *)
Lemma Qubo_vis_lookup C N P i j :
  (i ≤ j < N)%nat →
  Qubo_vis C N P !! (i, j) = Some (if decide (i = j) then - P + C i else 2 * P).
Proof.
  intros Hij. unfold Qubo_vis, cost_poly_vis, num_qubits.
  rewrite Qubo_items_lookup by done. unfold Qubo_entry. cbn [fst snd]. f_equal.
  destruct (decide (i = j)) as [->|Hne].
  - rewrite coeff_cost_function_square, coeff_cost_function_var by lia. ring.
  - rewrite coeff_cost_function_cross by lia. ring.
Qed.

(** [int(.)] truncates toward zero and leaves integers as they are. *)
Example int_values :
  int (Q2Qc (7 # 2)) = Qc_of_Z 3 ∧ int (Q2Qc (-3 # 2)) = Qc_of_Z (-1)
  ∧ int (Qc_of_Z (-96)) = Qc_of_Z (-96).
Proof. compute_done. Qed.

(** A zero coefficient is an entry like any other: with all costs and the
    penalty zero the dictionary for two variables has its three entries. *)
Example Qubo_keeps_zero_entries :
  let Q := Qubo (λ _, 0) 2 [0; 0] 0 in
  Q !! (0%nat, 0%nat) = Some 0 ∧ Q !! (0%nat, 1%nat) = Some 0
  ∧ Q !! (1%nat, 1%nat) = Some 0 ∧ size Q = 3%nat.
Proof. cbn zeta. compute_done. Qed.

(** The coefficients of the polynomial printed by the notebook:
    [50*X[i]**2], [100*X[i]*X[j]], [-96*X[0]], ..., [-91*X[4]] and [50]. *)
Example cost_poly_printed :
  let p := cost_poly (λ _, 0) TestN TestC TestP in
  (λ i, Poly.coeff_monomial p (Monomial.var 5 i)) <$> seq 0 5
    = Qc_of_Z <$> [-96; -97; -93; -98; -91]%Z
  ∧ (λ i, Poly.coeff_monomial p (Monomial.mul (Monomial.var 5 i) (Monomial.var 5 i)))
      <$> seq 0 5 = Qc_of_Z <$> [50; 50; 50; 50; 50]%Z
  ∧ (λ j, Poly.coeff_monomial p (Monomial.mul (Monomial.var 5 0) (Monomial.var 5 j)))
      <$> seq 1 4 = Qc_of_Z <$> [100; 100; 100; 100]%Z
  ∧ Poly.coeff_monomial p (Monomial.one 5) = Qc_of_Z 50.
Proof. cbn zeta. compute_done. Qed.

(** The eigensolvers report [x = [0, 0, 0, 1, 0]] with [fval = -48]. *)
Example qiskit_fval :
  qp_objective (qiskit_cost_function (λ _, 0) TestN TestC TestP) (one_hot 5 3)
  = Some (Qc_of_Z (-48)).
Proof. cbn zeta. compute_done. Qed.

(** The entries of the QUBO dictionary on the data of the notebook. *)
Example Qubo_on_test_data :
  let Q := Qubo (λ _, 0) TestN TestC TestP in
  (λ i, Q !! (i, i)) <$> seq 0 5
    = (λ z, Some (Qc_of_Z z)) <$> [-46; -47; -43; -48; -41]%Z
  ∧ Q !! (0%nat, 1%nat) = Some (Qc_of_Z 100) ∧ Q !! (1%nat, 0%nat) = None
  ∧ size Q = 15%nat.
Proof. cbn zeta. compute_done. Qed.

(** ** The least feasible objective *)

Lemma Qcmin_spec a b : (a ≤ b ∧ Qcmin a b = a) ∨ (b < a ∧ Qcmin a b = b).
Proof.
  unfold Qcmin. destruct (decide (a ≤ b)) as [Hab|Hab]; [by left | right].
  split; [by apply Qclt_nge | done].
Qed.

Lemma foldr_min_le e es :
  foldr Qcmin e es ≤ e ∧ ∀ e', e' ∈ es → foldr Qcmin e es ≤ e'.
Proof.
  induction es as [|a es [IHe IHes]]; simpl.
  - split; [done|]. by intros e' ?%elem_of_nil.
  - assert (Qcmin a (foldr Qcmin e es) ≤ a ∧
            Qcmin a (foldr Qcmin e es) ≤ foldr Qcmin e es) as [Ha Hf].
    { destruct (Qcmin_spec a (foldr Qcmin e es)) as [[Hle ->]|[Hlt ->]].
      - done.
      - split; [by apply Qclt_le_weak | done]. }
    split; [by trans (foldr Qcmin e es)|].
    intros e' [->|He']%elem_of_cons; [done|].
    trans (foldr Qcmin e es); [done | by apply IHes].
Qed.

Lemma foldr_min_elem e es : foldr Qcmin e es ∈ e :: es.
Proof.
  induction es as [|a es IH]; simpl; [by left|].
  destruct (Qcmin_spec a (foldr Qcmin e es)) as [[_ ->]|[_ ->]].
  - right. by left.
  - apply elem_of_cons in IH as [->|IH]; [by left | by do 2 right].
Qed.

Lemma min_list_spec l m :
  min_list l = Some m → m ∈ l ∧ ∀ e, e ∈ l → m ≤ e.
Proof.
  destruct l as [|e es]; [done|]. intros [= <-]. split; [apply foldr_min_elem|].
  destruct (foldr_min_le e es) as [He Hes].
  intros e' [->|He']%elem_of_cons; [done | by apply Hes].
Qed.

Lemma min_feasible_is_Some Q N : (1 ≤ N)%nat → is_Some (min_feasible Q N).
Proof. intros HN. destruct N as [|N]; [lia|]. by eexists. Qed.

Lemma min_feasible_le Q N m k :
  min_feasible Q N = Some m → (k < N)%nat → m ≤ qubo_energy Q (one_hot N k).
Proof.
  intros [_ Hle]%min_list_spec Hk. apply Hle. unfold feasible_energies.
  apply list_elem_of_fmap. exists k. split; [done|]. apply elem_of_seq. lia.
Qed.

Lemma total_cost_nonneg (TestC : list Qc) :
  Forall (λ c, 0 ≤ c) TestC → 0 ≤ total_cost TestC.
Proof.
  unfold total_cost. induction 1; simpl; [done | by apply Qcplus_nonneg_nonneg].
Qed.

Lemma cost_le_total_cost (TestC : list Qc) k ck :
  Forall (λ c, 0 ≤ c) TestC → TestC !! k = Some ck → 0 ≤ ck ∧ ck ≤ total_cost TestC.
Proof.
  intros Hpos. revert k.
  induction Hpos as [|c l Hc Hl IH]; intros k Hk; [done|].
  pose proof (total_cost_nonneg l Hl) as Hsum. unfold total_cost in *.
  destruct k as [|k]; simplify_eq/=.
  - split; [done|]. rewrite <-(Qcplus_0_r ck) at 1. by apply Qcplus_le_mono_l.
  - destruct (IH k Hk) as [H0 Hle]. split; [done|].
    rewrite <-(Qcplus_0_l ck). by apply Qcplus_le_compat.
Qed.

(** * The claims *)

(** C1. For a cost vector [TestC] of length [N] and an index [i] below [N],
    the QUBO dictionary has the diagonal entry [(i, i)], and it is the cost
    of [i] minus the penalty: [C_i - P]. *)
Theorem Qubo_diagonal C N TestC P i ci :
  length TestC = N → TestC !! i = Some ci →
  Qubo C N TestC P !! (i, i) = Some (ci - P).
Proof.
  intros Hlen Hi. assert (i < N)%nat as HiN by (apply lookup_lt_Some in Hi; lia).
  unfold Qubo, num_qubits, cost_poly. rewrite Qubo_items_lookup by lia.
  unfold Qubo_entry. cbn [fst snd]. rewrite decide_True by done.
  rewrite coeff_cost_function_square, coeff_cost_function_var by done.
  rewrite (cost_dict_lookup _ _ _ _ Hi). f_equal. ring.
Qed.

Lemma Qubo_diagonal_witness :
  length TestC = TestN ∧ TestC !! 3%nat = Some (Qc_of_Z 2)
  ∧ Qubo (λ _, 0) TestN TestC TestP !! (3%nat, 3%nat) = Some (Qc_of_Z 2 - TestP).
Proof.
  split; [reflexivity|]. split; [reflexivity|].
  apply (Qubo_diagonal (λ _, 0) TestN TestC TestP 3 (Qc_of_Z 2)); reflexivity.
Defined.

(** C2, as stated, fails on the data of the notebook: the coefficient of
    [X[0]] in the expanded polynomial is [-96], not [4 - 50], and the
    polynomial has the monomial [X[0]**2], with coefficient [50]. *)
Lemma cost_poly_not_reduced :
  Poly.coeff_monomial (cost_poly (λ _, 0) TestN TestC TestP) (Monomial.var TestN 0)
    ≠ Qc_of_Z 4 - TestP
  ∧ Poly.coeff_monomial (cost_poly (λ _, 0) TestN TestC TestP)
      (Monomial.mul (Monomial.var TestN 0) (Monomial.var TestN 0)) ≠ 0.
Proof. compute_done. Qed.

(** C2, amended. The expanded cost polynomial is not reduced by
    [X[i]**2 = X[i]]: it has the monomial [X[i]**2] with coefficient [P], and
    the coefficient of [X[i]] is [C_i - 2 P]. The reduction is made where the
    QUBO entry [(i, i)] is assembled: the two coefficients are added there,
    which gives [C_i - P]. *)
Theorem cost_poly_coefficients C N TestC P i ci :
  length TestC = N → TestC !! i = Some ci →
  let p := cost_poly C N TestC P in
  Poly.coeff_monomial p (Monomial.var N i) = ci - 2 * P
  ∧ Poly.coeff_monomial p (Monomial.mul (Monomial.var N i) (Monomial.var N i)) = P
  ∧ Qubo_entry p N (i, i)
    = Poly.coeff_monomial p (Monomial.mul (Monomial.var N i) (Monomial.var N i))
      + Poly.coeff_monomial p (Monomial.var N i)
  ∧ Qubo_entry p N (i, i) = ci - P.
Proof.
  intros Hlen Hi. assert (i < N)%nat as HiN by (apply lookup_lt_Some in Hi; lia).
  unfold cost_poly, num_qubits. cbn zeta. unfold Qubo_entry. cbn [fst snd].
  rewrite decide_True by done.
  rewrite coeff_cost_function_square, coeff_cost_function_var by done.
  rewrite (cost_dict_lookup _ _ _ _ Hi). repeat split; ring.
Qed.

Lemma cost_poly_coefficients_witness :
  length TestC = TestN ∧ TestC !! 0%nat = Some (Qc_of_Z 4)
  ∧ let p := cost_poly (λ _, 0) TestN TestC TestP in
    Poly.coeff_monomial p (Monomial.var TestN 0) = Qc_of_Z 4 - 2 * TestP
    ∧ Poly.coeff_monomial p (Monomial.mul (Monomial.var TestN 0) (Monomial.var TestN 0))
      = TestP
    ∧ Qubo_entry p TestN (0%nat, 0%nat)
      = Poly.coeff_monomial p (Monomial.mul (Monomial.var TestN 0) (Monomial.var TestN 0))
        + Poly.coeff_monomial p (Monomial.var TestN 0)
    ∧ Qubo_entry p TestN (0%nat, 0%nat) = Qc_of_Z 4 - TestP.
Proof.
  split; [reflexivity|]. split; [reflexivity|].
  apply (cost_poly_coefficients (λ _, 0) TestN TestC TestP 0 (Qc_of_Z 4)); reflexivity.
Defined.

(** C3. For a cost vector [TestC] of length [N] and indices [i < j < N],
    the QUBO dictionary has the off-diagonal entry [(i, j)], and it is
    twice the penalty: [2 P]. *)
Theorem Qubo_off_diagonal C N TestC P i j :
  length TestC = N → (i < j < N)%nat →
  Qubo C N TestC P !! (i, j) = Some (2 * P).
Proof.
  intros _ Hij. unfold Qubo, num_qubits, cost_poly. rewrite Qubo_items_lookup by lia.
  unfold Qubo_entry. cbn [fst snd]. rewrite decide_False by lia.
  rewrite coeff_cost_function_cross by lia. f_equal. ring.
Qed.

Lemma Qubo_off_diagonal_witness :
  length TestC = TestN ∧ (1 < 4 < TestN)%nat
  ∧ Qubo (λ _, 0) TestN TestC TestP !! (1%nat, 4%nat) = Some (2 * TestP).
Proof.
  split; [reflexivity|]. split; [unfold TestN; lia|].
  apply (Qubo_off_diagonal (λ _, 0) TestN TestC TestP 1 4);
    [reflexivity | unfold TestN; lia].
Defined.

(** C4, as stated, fails on the data of the notebook: at the assignment
    that sets only [X[3]] the QUBO objective is [-48], not the cost [2]. *)
Lemma Qubo_energy_one_hot_not_cost :
  qubo_energy (Qubo (λ _, 0) TestN TestC TestP) (one_hot TestN 3) = Qc_of_Z (-48)
  ∧ qubo_energy (Qubo (λ _, 0) TestN TestC TestP) (one_hot TestN 3) ≠ Qc_of_Z 2.
Proof. compute_done. Qed.

(** C4, amended. At the assignment that sets only [X[k]] the objective of
    the QUBO dictionary is [C_k - P]; it is the cost polynomial, whose
    constant term [P] the dictionary does not carry, that evaluates to the
    cost [C_k] there. *)
Theorem Qubo_energy_basis C N TestC P k ck :
  length TestC = N → TestC !! k = Some ck →
  qubo_energy (Qubo C N TestC P) (one_hot N k) = ck - P
  ∧ Poly.eval (bit (one_hot N k)) (cost_poly C N TestC P) = ck.
Proof.
  intros Hlen Hk. assert (k < N)%nat as HkN by (apply lookup_lt_Some in Hk; lia).
  rewrite eval_cost_poly, Qubo_energy_one_hot by done.
  rewrite (cost_dict_lookup _ _ _ _ Hk). split; ring.
Qed.

Lemma Qubo_energy_basis_witness :
  length TestC = TestN ∧ TestC !! 3%nat = Some (Qc_of_Z 2)
  ∧ qubo_energy (Qubo (λ _, 0) TestN TestC TestP) (one_hot TestN 3) = Qc_of_Z 2 - TestP
  ∧ Poly.eval (bit (one_hot TestN 3)) (cost_poly (λ _, 0) TestN TestC TestP)
    = Qc_of_Z 2.
Proof.
  split; [reflexivity|]. split; [reflexivity|].
  apply (Qubo_energy_basis (λ _, 0) TestN TestC TestP 3 (Qc_of_Z 2)); reflexivity.
Defined.

(** C5. On the data of the notebook, [N = 5], [C = [4, 3, 7, 2, 9]] and
    [P = 50], the assignment that sets only [X[3]] has a strictly smaller
    QUBO objective than every other assignment of the five variables: it
    is the unique minimizer. *)
Theorem one_hot_3_unique_minimizer C x :
  length x = TestN → x ≠ one_hot TestN 3 →
  qubo_energy (Qubo C TestN TestC TestP) (one_hot TestN 3)
  < qubo_energy (Qubo C TestN TestC TestP) x.
Proof.
  intros Hlen Hne. rewrite !Qubo_energy. unfold TestN in Hlen.
  do 5 (destruct x as [|[] x]; [done| |]).
  all: destruct x; [|done].
  all: first [by destruct Hne | by vm_compute].
Qed.

Lemma one_hot_3_unique_minimizer_witness :
  length (two_hot TestN 1 3) = TestN ∧ two_hot TestN 1 3 ≠ one_hot TestN 3
  ∧ qubo_energy (Qubo (λ _, 0) TestN TestC TestP) (one_hot TestN 3)
    < qubo_energy (Qubo (λ _, 0) TestN TestC TestP) (two_hot TestN 1 3).
Proof.
  split; [reflexivity|]. split; [vm_compute; discriminate|].
  apply (one_hot_3_unique_minimizer (λ _, 0) (two_hot TestN 1 3));
    [reflexivity | vm_compute; discriminate].
Defined.

(** C6, as stated, fails for negative costs: with [N = 2], [C = [-5, -5]]
    and [P = 1] the penalty exceeds the sum of the costs, the least feasible
    objective is [-6], and the assignment that sets both variables has the
    smaller objective [-10]. *)
Lemma penalty_above_total_cost_insufficient :
  total_cost (Qc_of_Z <$> [-5; -5]%Z) < 1
  ∧ min_feasible (Qubo (λ _, 0) 2 (Qc_of_Z <$> [-5; -5]%Z) 1) 2 = Some (Qc_of_Z (-6))
  ∧ ¬ (Qc_of_Z (-6)
       < qubo_energy (Qubo (λ _, 0) 2 (Qc_of_Z <$> [-5; -5]%Z) 1) (two_hot 2 0 1)).
Proof. compute_done. Qed.

(** C6, amended. For [N >= 1], a cost vector of length [N] whose costs are
    not negative and a penalty [P] above the sum of the costs, the
    objective of the QUBO dictionary at the assignment that sets no
    variable, and at every assignment that sets exactly two, is strictly
    greater than the least objective over the assignments that set exactly
    one. *)
Theorem penalty_dominates C N TestC P :
  (1 ≤ N)%nat → length TestC = N → Forall (λ c, 0 ≤ c) TestC → total_cost TestC < P →
  ∃ m, min_feasible (Qubo C N TestC P) N = Some m
    ∧ m < qubo_energy (Qubo C N TestC P) (all_zero N)
    ∧ ∀ i j, (i < j < N)%nat → m < qubo_energy (Qubo C N TestC P) (two_hot N i j).
Proof.
  intros HN Hlen Hpos HP.
  destruct (min_feasible_is_Some (Qubo C N TestC P) N HN) as [m Hm]. exists m.
  destruct (lookup_lt_is_Some_2 TestC 0) as [c0 Hc0]; [lia|].
  pose proof (min_feasible_le _ _ _ 0%nat Hm ltac:(lia)) as Hle.
  rewrite Qubo_energy_one_hot, (cost_dict_lookup _ _ _ _ Hc0) in Hle by lia.
  destruct (cost_le_total_cost _ _ _ Hpos Hc0) as [_ Hc0T].
  assert (m < 0) as Hm0.
  { apply Qcle_lt_trans with (c0 - P); [done|].
    apply (proj2 (Qclt_minus_iff (c0 - P) 0)).
    replace (0 + - (c0 - P)) with (P + - c0) by ring.
    apply (proj1 (Qclt_minus_iff c0 P)).
    by apply Qcle_lt_trans with (total_cost TestC). }
  split; [done|]. split.
  - by rewrite Qubo_energy_all_zero.
  - intros i j Hij. rewrite Qubo_energy_two_hot by lia.
    destruct (lookup_lt_is_Some_2 TestC i) as [ci Hi]; [lia|].
    destruct (lookup_lt_is_Some_2 TestC j) as [cj Hj]; [lia|].
    rewrite (cost_dict_lookup _ _ _ _ Hi), (cost_dict_lookup _ _ _ _ Hj).
    destruct (cost_le_total_cost _ _ _ Hpos Hi) as [Hi0 _].
    destruct (cost_le_total_cost _ _ _ Hpos Hj) as [Hj0 _].
    apply Qclt_le_trans with 0; [done | by apply Qcplus_nonneg_nonneg].
Qed.

Lemma penalty_dominates_witness :
  (1 ≤ TestN)%nat ∧ length TestC = TestN ∧ Forall (λ c, 0 ≤ c) TestC
  ∧ total_cost TestC < TestP
  ∧ ∃ m, min_feasible (Qubo (λ _, 0) TestN TestC TestP) TestN = Some m
      ∧ m < qubo_energy (Qubo (λ _, 0) TestN TestC TestP) (all_zero TestN)
      ∧ ∀ i j, (i < j < TestN)%nat →
          m < qubo_energy (Qubo (λ _, 0) TestN TestC TestP) (two_hot TestN i j).
Proof.
  assert (Forall (λ c, 0 ≤ c) TestC) as Hpos by (repeat constructor; by vm_compute).
  split; [unfold TestN; lia|]. split; [reflexivity|]. split; [exact Hpos|].
  split; [by vm_compute|].
  apply (penalty_dominates (λ _, 0) TestN TestC TestP);
    [unfold TestN; lia | reflexivity | exact Hpos | by vm_compute].
Defined.

(** C7. For [N >= 1] and a cost vector of length [N], the QUBO dictionary
    has [N + N (N - 1) / 2] entries, and its keys are exactly the index
    pairs [(i, j)] with [i <= j < N]: every diagonal and every cross entry
    is present, whatever its value. *)
Theorem Qubo_entries C N TestC P :
  (1 ≤ N)%nat → length TestC = N →
  size (Qubo C N TestC P) = (N + N * (N - 1) / 2)%nat
  ∧ ∀ i j, is_Some (Qubo C N TestC P !! (i, j)) ↔ (i ≤ j < N)%nat.
Proof.
  intros _ _. unfold Qubo, num_qubits. split; [apply Qubo_items_size|].
  intros i j. split.
  - intros [v Hv]. destruct (decide (i ≤ j < N)%nat) as [|Hn]; [done|].
    by rewrite Qubo_items_lookup_None in Hv.
  - intros Hij. by rewrite Qubo_items_lookup.
Qed.

Lemma Qubo_entries_witness :
  (1 ≤ TestN)%nat ∧ length TestC = TestN
  ∧ size (Qubo (λ _, 0) TestN TestC TestP) = (TestN + TestN * (TestN - 1) / 2)%nat
  ∧ ∀ i j, is_Some (Qubo (λ _, 0) TestN TestC TestP !! (i, j)) ↔ (i ≤ j < TestN)%nat.
Proof.
  split; [unfold TestN; lia|]. split; [reflexivity|].
  apply (Qubo_entries (λ _, 0) TestN TestC TestP); [unfold TestN; lia | reflexivity].
Defined.

(** C8, as stated, fails: the substitution goes through for a cost vector
    longer than [N] and for a shorter one. *)
Lemma instantiate_accepts_mismatch :
  length (Qc_of_Z <$> [4; 3]%Z) ≠ 1%nat
  ∧ instantiate (λ _, 0) 1 (Qc_of_Z <$> [4; 3]%Z) (Qc_of_Z 50) ≠ DimensionMismatch
  ∧ length (Qc_of_Z <$> [4]%Z) ≠ 2%nat
  ∧ instantiate (λ _, 0) 2 (Qc_of_Z <$> [4]%Z) (Qc_of_Z 50) ≠ DimensionMismatch.
Proof. repeat split; discriminate. Qed.

(** C8, amended. For [N >= 1] the substitution step never fails, whatever
    the length of the cost vector: it yields the cost polynomial, in which
    the coefficient of [X[i]] is [TestC[i] - 2 P] where the cost vector has
    an entry [i], and [C[i] - 2 P] with the symbol [C[i]] left free where it
    has none; entries beyond [N] are not used. *)
Theorem instantiate_never_fails C N TestC P :
  (1 ≤ N)%nat →
  ∃ p, instantiate C N TestC P = Instantiated p
    ∧ ∀ i, (i < N)%nat →
        Poly.coeff_monomial p (Monomial.var N i) = default (C i) (TestC !! i) - 2 * P.
Proof.
  intros _. eexists. split; [reflexivity|]. intros i Hi.
  unfold cost_poly, num_qubits. by rewrite coeff_cost_function_var.
Qed.

Lemma instantiate_never_fails_witness :
  (1 ≤ 2)%nat
  ∧ ∃ p, instantiate (λ _, 0) 2 [Qc_of_Z 4] (Qc_of_Z 50) = Instantiated p
      ∧ ∀ i, (i < 2)%nat →
          Poly.coeff_monomial p (Monomial.var 2 i)
          = default 0 ([Qc_of_Z 4] !! i) - 2 * Qc_of_Z 50.
Proof.
  split; [lia|]. apply (instantiate_never_fails (λ _, 0) 2 [Qc_of_Z 4] (Qc_of_Z 50)). lia.
Defined.

(** C9. For [N >= 1], a cost vector of length [N] and an assignment [x] of
    the [N] binary variables, the value of the expanded cost polynomial at
    [x] is the objective of the QUBO dictionary at [x] plus the penalty [P]:
    the dictionary does not carry the constant term [P] of the polynomial. *)
Theorem cost_poly_eval_Qubo C N TestC P x :
  (1 ≤ N)%nat → length TestC = N → length x = N →
  Poly.eval (bit x) (cost_poly C N TestC P) = qubo_energy (Qubo C N TestC P) x + P.
Proof. intros _ _ _. apply eval_cost_poly. Qed.

Lemma cost_poly_eval_Qubo_witness :
  (1 ≤ TestN)%nat ∧ length TestC = TestN ∧ length (two_hot TestN 0 2) = TestN
  ∧ Poly.eval (bit (two_hot TestN 0 2)) (cost_poly (λ _, 0) TestN TestC TestP)
    = qubo_energy (Qubo (λ _, 0) TestN TestC TestP) (two_hot TestN 0 2) + TestP.
Proof.
  split; [unfold TestN; lia|]. split; [reflexivity|]. split; [reflexivity|].
  apply (cost_poly_eval_Qubo (λ _, 0) TestN TestC TestP (two_hot TestN 0 2));
    [unfold TestN; lia | reflexivity | reflexivity].
Defined.

(** C10 holds on integer data and fails beyond it: the linear coefficients
    of the quadratic program go through [int(.)], the quadratic ones and the
    entries of the QUBO dictionary do not. With [N = 1], the cost [1/2] and
    [P = 1] the coefficient [-3/2] of [X[0]] becomes [-1]: at [x = [1]] the
    quadratic program has the objective [-1 + 1 = 0], the QUBO dictionary
    [-1/2]. *)
Theorem qiskit_linear_coefficient_truncated :
  qp_linear (qiskit_cost_function (λ _, 0) 1 [Q2Qc (1 # 2)] 1) = [Qc_of_Z (-1)]
  ∧ qp_objective (qiskit_cost_function (λ _, 0) 1 [Q2Qc (1 # 2)] 1) [true] = Some 0
  ∧ qubo_energy (Qubo (λ _, 0) 1 [Q2Qc (1 # 2)] 1) [true] = - Q2Qc (1 # 2).
Proof. compute_done. Qed.

(** * Further properties of the notebook *)

(** ** The visualization matrix *)

Section Visualization.
Variable n : nat.
Implicit Types (M : list (list Qc)) (key : nat * nat) (v : Qc).

Lemma square_zeros : square n (zeros n).
Proof.
  unfold square, zeros. split; [apply length_replicate|].
  apply Forall_replicate, length_replicate.
Qed.

Lemma cell_zeros i j : (i < n)%nat → (j < n)%nat → cell (zeros n) i j = Some 0.
Proof.
  intros Hi Hj. unfold cell, zeros. rewrite lookup_replicate_2 by done. simpl.
  by rewrite lookup_replicate_2.
Qed.

Lemma square_row M i : square n M → (i < n)%nat → ∃ row, M !! i = Some row ∧ length row = n.
Proof.
  intros [Hlen Hrows] Hi. destruct (lookup_lt_is_Some_2 M i) as [row Hrow]; [lia|].
  exists row. split; [done|]. rewrite list.Forall_forall in Hrows. apply Hrows.
  by eapply list_elem_of_lookup_2.
Qed.

(** An assignment within the matrix changes that cell and no other, and
    keeps the shape. *)
Lemma set_cell_in_range M key v :
  square n M → in_range n key →
  ∃ M', set_cell M key v = Some M' ∧ square n M'
    ∧ ∀ i j, cell M' i j = if decide ((i, j) = key) then Some v else cell M i j.
Proof.
  intros HM [Hi Hj]. destruct key as [a b]; simpl in *.
  destruct (square_row M a HM Hi) as (row & Hrow & Hlen).
  unfold set_cell. cbn [fst snd]. rewrite Hrow. simpl.
  rewrite decide_True by lia. eexists. split; [done|]. destruct HM as [HlenM Hrows].
  split.
  - split; [by rewrite length_insert|].
    apply Forall_insert; [done | by rewrite length_insert].
  - intros i j. unfold cell. destruct (decide (i = a)) as [->|Hia].
    + rewrite list_lookup_insert_eq by lia. simpl. rewrite Hrow. simpl.
      destruct (decide (j = b)) as [->|Hjb].
      * rewrite decide_True by done. by rewrite list_lookup_insert_eq by lia.
      * rewrite decide_False by congruence. by rewrite list_lookup_insert_ne.
    + rewrite decide_False by congruence. by rewrite list_lookup_insert_ne.
Qed.

(** An assignment beyond the matrix raises. *)
Lemma set_cell_out_of_range M key v :
  square n M → ¬ in_range n key → set_cell M key v = None.
Proof.
  intros HM Hkey. unfold set_cell. destruct (M !! key.1) as [row|] eqn:Hrow; [|done].
  simpl. destruct HM as [HlenM Hrows]. rewrite list.Forall_forall in Hrows.
  assert (length row = n) as Hlen by (apply Hrows; by eapply list_elem_of_lookup_2).
  apply lookup_lt_Some in Hrow. rewrite decide_False; [done|].
  unfold in_range in Hkey. lia.
Qed.

Lemma foldl_set_cell_None (items : list ((nat * nat) * Qc)) :
  foldl (λ acc kv, M ← acc; set_cell M kv.1 kv.2) None items = None.
Proof. induction items as [|kv items IH]; [done | apply IH]. Qed.

(** The loop over items with distinct keys within the matrix. *)
Lemma foldl_set_cell_in_range (items : list ((nat * nat) * Qc)) M :
  square n M → Forall (in_range n) (items.*1) → NoDup (items.*1) →
  ∃ M', foldl (λ acc kv, M ← acc; set_cell M kv.1 kv.2) (Some M) items = Some M'
    ∧ square n M'
    ∧ (∀ i j v, ((i, j), v) ∈ items → cell M' i j = Some v)
    ∧ (∀ i j, (i, j) ∉ items.*1 → cell M' i j = cell M i j).
Proof.
  revert M. induction items as [|[key v] items IH]; intros M HM Hkeys Hnd.
  - exists M. split; [done|]. split; [done|]. split; [|done].
    by intros i j v' ?%elem_of_nil.
  - csimpl in *. apply list.Forall_cons in Hkeys as [Hkey Hkeys].
    apply list.NoDup_cons in Hnd as [Hfresh Hnd].
    destruct (set_cell_in_range M key v HM Hkey) as (M1 & -> & HM1 & Hcell1).
    destruct (IH M1 HM1 Hkeys Hnd) as (M' & HM' & Hsq & Hin & Hout).
    exists M'. split; [done|]. split; [done|]. split.
    + intros i j v' [[= <- <-]|Hv']%elem_of_cons; [|by apply Hin].
      rewrite Hout by done. rewrite Hcell1. by rewrite decide_True.
    + intros i j Hij. apply not_elem_of_cons in Hij as [Hne Hij].
      rewrite Hout by done. rewrite Hcell1. by rewrite decide_False.
Qed.

(** The loop over items one of whose keys is beyond the matrix. *)
Lemma foldl_set_cell_out_of_range (items : list ((nat * nat) * Qc)) M :
  square n M → Exists (λ key, ¬ in_range n key) (items.*1) →
  foldl (λ acc kv, M ← acc; set_cell M kv.1 kv.2) (Some M) items = None.
Proof.
  revert M. induction items as [|[key v] items IH]; intros M HM Hex; csimpl in *.
  - by apply Exists_nil in Hex.
  - destruct (decide (in_range n key)) as [Hkey|Hkey].
    + destruct (set_cell_in_range M key v HM Hkey) as (M1 & -> & HM1 & _).
      apply Exists_cons in Hex as [?|Hex]; [done | by apply IH].
    + rewrite set_cell_out_of_range by done. apply foldl_set_cell_None.
Qed.

End Visualization.

Lemma visualization_in_range (n : nat) (Q : gmap (nat * nat) Qc) :
  (∀ key, is_Some (Q !! key) → in_range n key) →
  ∃ M, visualization n Q = Some M ∧ square n M
    ∧ ∀ i j, (i < n)%nat → (j < n)%nat → cell M i j = Some (default 0 (Q !! (i, j))).
Proof.
  intros Hkeys. unfold visualization, fill.
  destruct (foldl_set_cell_in_range n (map_to_list Q) (zeros n))
    as (M & HM & Hsq & Hin & Hout).
  - apply square_zeros.
  - apply list.Forall_forall. intros key (kv & -> & Hkv)%list_elem_of_fmap.
    destruct kv as [key v]. apply elem_of_map_to_list in Hkv. apply Hkeys. by exists v.
  - apply NoDup_fst_map_to_list.
  - exists M. split; [done|]. split; [done|]. intros i j Hi Hj.
    destruct (Q !! (i, j)) as [v|] eqn:Hv; simpl.
    + apply Hin. by apply elem_of_map_to_list.
    + rewrite Hout; [by apply cell_zeros|].
      intros (kv & Hkey & Hkv)%list_elem_of_fmap. destruct kv as [key v].
      simpl in Hkey. subst key. apply elem_of_map_to_list in Hkv. congruence.
Qed.

Lemma visualization_out_of_range (n : nat) (Q : gmap (nat * nat) Qc) key :
  is_Some (Q !! key) → ¬ in_range n key → visualization n Q = None.
Proof.
  intros [v Hv] Hkey. unfold visualization, fill.
  apply (foldl_set_cell_out_of_range n); [apply square_zeros|].
  apply Exists_exists. exists key. split; [|done].
  apply list_elem_of_In, list_elem_of_fmap. exists (key, v).
  split; [done | by apply elem_of_map_to_list].
Qed.

(** X1. The visualization loop copies a dictionary into the matrix: if every
    key of the dictionary lies within the [n] by [n] matrix, the loop ends
    with [n] rows of length [n] whose cell [(i, j)] holds the value of the
    dictionary at [(i, j)], and [0] where the dictionary has no entry. *)
Theorem visualization_shows_dictionary (n : nat) (Q : gmap (nat * nat) Qc) :
  (∀ key, is_Some (Q !! key) → in_range n key) →
  ∃ M, visualization n Q = Some M
    ∧ length M = n ∧ (∀ row, row ∈ M → length row = n)
    ∧ ∀ i j, (i < n)%nat → (j < n)%nat → cell M i j = Some (default 0 (Q !! (i, j))).
Proof.
  intros Hkeys. destruct (visualization_in_range n Q Hkeys) as (M & HM & [Hlen Hrows] & Hc).
  exists M. split; [done|]. split; [done|]. split; [|done].
  by apply list.Forall_forall.
Qed.

Lemma visualization_shows_dictionary_witness :
  (∀ key, is_Some (({[ (0%nat, 1%nat) := 2 ]} : gmap (nat * nat) Qc) !! key) →
          in_range 2 key)
  ∧ ∃ M, visualization 2 {[ (0%nat, 1%nat) := 2 ]} = Some M
      ∧ length M = 2%nat ∧ (∀ row, row ∈ M → length row = 2%nat)
      ∧ ∀ i j, (i < 2)%nat → (j < 2)%nat →
          cell M i j
          = Some (default 0 (({[ (0%nat, 1%nat) := 2 ]} : gmap (nat * nat) Qc) !! (i, j))).
Proof.
  assert (∀ key, is_Some (({[ (0%nat, 1%nat) := 2 ]} : gmap (nat * nat) Qc) !! key) →
                 in_range 2 key) as Hkeys.
  { intros key [v Hv]. apply lookup_singleton_Some in Hv as [<- _].
    unfold in_range. simpl. lia. }
  split; [exact Hkeys|].
  apply (visualization_shows_dictionary 2 {[ (0%nat, 1%nat) := 2 ]} Hkeys).
Defined.

(** X2. The visualization loop raises an IndexError exactly when the
    dictionary has a key outside the [n] by [n] matrix. *)
Theorem visualization_raises_iff (n : nat) (Q : gmap (nat * nat) Qc) :
  visualization n Q = None ↔ ∃ key, is_Some (Q !! key) ∧ ¬ in_range n key.
Proof.
  split.
  - intros Hnone.
    destruct (decide (Exists (λ key, ¬ in_range n key) ((map_to_list Q).*1)))
      as [Hex|Hall].
    + apply Exists_exists in Hex as (key & Hkey & Hout). exists key. split; [|done].
      apply list_elem_of_In, list_elem_of_fmap in Hkey as ([key' v] & -> & Hkv).
      exists v. by apply elem_of_map_to_list.
    + destruct (visualization_in_range n Q) as (M & HM & _); [|congruence].
      intros key [v Hv]. destruct (decide (in_range n key)) as [|Hout]; [done|].
      destruct Hall. apply Exists_exists. exists key. split; [|done].
      apply list_elem_of_In, list_elem_of_fmap. exists (key, v).
      split; [done | by apply elem_of_map_to_list].
  - intros (key & Hsome & Hout). by eapply visualization_out_of_range.
Qed.

(** X3. On the symbolic QUBO dictionary the visualization loop does not
    raise, and the matrix it builds is the one the notebook displays:
    [-P + C[i]] on the diagonal, [2*P] above it and [0] below it. *)
Theorem visualization_Qubo_vis (C : nat → Qc) (N : nat) (P : Qc) :
  (1 ≤ N)%nat →
  ∃ M, visualization (num_qubits N) (Qubo_vis C N P) = Some M
    ∧ length M = N
    ∧ ∀ i j, (i < N)%nat → (j < N)%nat →
        cell M i j
        = Some (if decide (i = j) then - P + C i
                else if decide (i < j)%nat then 2 * P else 0).
Proof.
  intros _. unfold num_qubits.
  destruct (visualization_in_range N (Qubo_vis C N P)) as (M & HM & [Hlen _] & Hc).
  - intros [i j] [v Hv]. destruct (decide (i ≤ j < N)%nat) as [|Hn].
    + unfold in_range. simpl. lia.
    + unfold Qubo_vis, num_qubits in Hv. by rewrite Qubo_items_lookup_None in Hv.
  - exists M. split; [done|]. split; [done|]. intros i j Hi Hj. rewrite Hc by done.
    destruct (decide (i ≤ j)%nat) as [Hij|Hij].
    + rewrite Qubo_vis_lookup by lia. simpl. repeat case_decide; first [done | lia].
    + unfold Qubo_vis, num_qubits. rewrite Qubo_items_lookup_None by lia. simpl.
      rewrite decide_False by lia. by rewrite decide_False by lia.
Qed.

Lemma visualization_Qubo_vis_witness :
  (1 ≤ 2)%nat
  ∧ ∃ M, visualization (num_qubits 2) (Qubo_vis (λ _, 1) 2 2) = Some M
      ∧ length M = 2%nat
      ∧ ∀ i j, (i < 2)%nat → (j < 2)%nat →
          cell M i j
          = Some (if decide (i = j) then - 2 + 1
                  else if decide (i < j)%nat then 2 * 2 else 0).
Proof. split; [lia|]. apply (visualization_Qubo_vis (λ _, 1) 2 2). lia. Defined.

(** ** The shape of the cost polynomial *)

Lemma degree_one N : degree (Monomial.one N) = 0%nat.
Proof. unfold degree, Monomial.one. rewrite sum_list_replicate. lia. Qed.

Lemma degree_var_from (a n i : nat) :
  sum_list ((λ k, if decide (k = i) then 1%nat else 0%nat) <$> seq a n)
  = if decide (a ≤ i < a + n)%nat then 1%nat else 0%nat.
Proof.
  revert a. induction n as [|n IH]; intros a; csimpl.
  - rewrite decide_False by lia. done.
  - rewrite IH. repeat case_decide; lia.
Qed.

Lemma degree_var N i : (i < N)%nat → degree (Monomial.var N i) = 1%nat.
Proof.
  intros Hi. unfold degree, Monomial.var. rewrite degree_var_from.
  by rewrite decide_True by lia.
Qed.

Lemma degree_mul (m n : Monomial.t) :
  length m = length n → degree (Monomial.mul m n) = (degree m + degree n)%nat.
Proof.
  unfold degree, Monomial.mul. revert n.
  induction m as [|a m IH]; intros [|b n] Hlen; simplify_eq/=; [done|].
  rewrite (IH n) by done. lia.
Qed.

Lemma degree_mul_var N i j :
  (i < N)%nat → (j < N)%nat →
  degree (Monomial.mul (Monomial.var N i) (Monomial.var N j)) = 2%nat.
Proof.
  intros Hi Hj. rewrite degree_mul by (by rewrite !MonomialFacts.length_var).
  by rewrite !degree_var.
Qed.

(** X4. The constant term of the expanded cost polynomial is the penalty
    [P], whatever the costs: it comes from the square of the constraint
    [sum X[i] - 1] alone. *)
Theorem cost_poly_constant_term (C : nat → Qc) (N : nat) (TestC : list Qc) (P : Qc) :
  (1 ≤ N)%nat →
  Poly.coeff_monomial (cost_poly C N TestC P) (Monomial.one N) = P.
Proof. intros _. unfold cost_poly, num_qubits. apply coeff_cost_function_one. Qed.

Lemma cost_poly_constant_term_witness :
  (1 ≤ TestN)%nat
  ∧ Poly.coeff_monomial (cost_poly (λ _, 0) TestN TestC TestP) (Monomial.one TestN)
    = TestP.
Proof.
  split; [unfold TestN; lia|].
  apply (cost_poly_constant_term (λ _, 0) TestN TestC TestP). unfold TestN. lia.
Defined.

(** X5. The expanded cost polynomial is quadratic: every monomial of total
    degree above two has the coefficient [0], so that the constant term,
    the coefficients of the [X[i]] and those of the [X[i]*X[j]] are all the
    polynomial has. *)
Theorem cost_poly_quadratic (C : nat → Qc) (N : nat) (TestC : list Qc) (P : Qc)
    (m : Monomial.t) :
  (1 ≤ N)%nat → (2 < degree m)%nat →
  Poly.coeff_monomial (cost_poly C N TestC P) m = 0.
Proof.
  intros _ Hm. unfold cost_poly, num_qubits. rewrite PolyFacts.coeff_cost_function.
  unfold pairs_to, gens_to, unit_to.
  rewrite (sumQ_seq_zero (λ i, cost_dict C TestC i * _)).
  2:{ intros i Hi. rewrite ind_False; [ring|]. intros <-. rewrite degree_var in Hm; lia. }
  rewrite (sumQ_seq_zero (λ p, sumQ _ _)).
  2:{ intros p Hp. apply sumQ_seq_zero. intros q Hq. apply ind_False.
      intros <-. rewrite degree_mul_var in Hm; lia. }
  rewrite (sumQ_seq_zero (λ p, ind _)).
  2:{ intros p Hp. apply ind_False. intros <-. rewrite degree_var in Hm; lia. }
  rewrite ind_False; [ring|]. intros <-. rewrite degree_one in Hm. lia.
Qed.

Lemma cost_poly_quadratic_witness :
  (1 ≤ 2)%nat ∧ (2 < degree [2; 1])%nat
  ∧ Poly.coeff_monomial (cost_poly (λ _, 0) 2 (Qc_of_Z <$> [4; 3]%Z) (Qc_of_Z 50)) [2; 1]%nat
    = 0.
Proof.
  split; [lia|]. split; [simpl; lia|].
  apply (cost_poly_quadratic (λ _, 0) 2 (Qc_of_Z <$> [4; 3]%Z) (Qc_of_Z 50) [2; 1]%nat);
    [lia | simpl; lia].
Defined.

(** X6. Expanding the cost function keeps its value: at every point [b],
    binary or not, the expanded polynomial evaluates to the cost of the
    point plus the penalty times the square of the constraint,
    [sum C_i b_i + P (sum b_i - 1)^2]. *)
Theorem cost_poly_value (C : nat → Qc) (N : nat) (TestC : list Qc) (P : Qc)
    (b : nat → Qc) :
  (1 ≤ N)%nat →
  Poly.eval b (cost_poly C N TestC P)
  = sumQ (λ i, cost_dict C TestC i * b i) (seq 0 N)
    + P * (sumQ b (seq 0 N) - 1) ^ 2.
Proof. intros _. unfold cost_poly, num_qubits. apply EvalFacts.eval_cost_function. Qed.

Lemma cost_poly_value_witness :
  (1 ≤ 2)%nat
  ∧ Poly.eval (λ _, Q2Qc (1 # 3)) (cost_poly (λ _, 0) 2 (Qc_of_Z <$> [4; 3]%Z) (Qc_of_Z 50))
    = sumQ (λ i, cost_dict (λ _, 0) (Qc_of_Z <$> [4; 3]%Z) i * Q2Qc (1 # 3)) (seq 0 2)
      + Qc_of_Z 50 * (sumQ (λ _, Q2Qc (1 # 3)) (seq 0 2) - 1) ^ 2.
Proof.
  split; [lia|].
  apply (cost_poly_value (λ _, 0) 2 (Qc_of_Z <$> [4; 3]%Z) (Qc_of_Z 50) (λ _, Q2Qc (1 # 3))).
  lia.
Defined.

(** ** The objective over all assignments *)

Lemma sumQ_cons {A} (f : A → Qc) a l : sumQ f (a :: l) = f a + sumQ f l.
Proof. done. Qed.

Lemma sumQ_nonneg {A} (f : A → Qc) l : (∀ i, i ∈ l → 0 ≤ f i) → 0 ≤ sumQ f l.
Proof.
  induction l as [|a l IH]; intros Hf; [done|]. rewrite sumQ_cons.
  apply Qcplus_nonneg_nonneg; [apply Hf; by left|].
  apply IH. intros i Hi. apply Hf. by right.
Qed.

Lemma bit_nonneg x i : 0 ≤ bit x i.
Proof. unfold bit. destruct (default false (x !! i)); compute_done. Qed.

(** The bits of an assignment add up to the number of variables it sets. *)
Lemma sum_bits_weight x :
  sumQ (bit x) (seq 0 (length x)) = Qc_of_Z (Z.of_nat (weight x)).
Proof.
  induction x as [|b x IH]; [exact (eq_sym Z2Qc_inj_0)|]. cbn [length seq weight].
  rewrite <-fmap_S_seq, sumQ_cons, sumQ_fmap.
  rewrite (sumQ_ext (bit (b :: x) ∘ S) (bit x)) by done.
  rewrite IH, Nat2Z.inj_add, Z2Qc_inj_add. f_equal.
  destruct b; [exact (eq_sym Z2Qc_inj_1) | exact (eq_sym Z2Qc_inj_0)].
Qed.

Lemma weight_zero x : weight x = 0%nat → x = all_zero (length x).
Proof.
  unfold all_zero. induction x as [|[] x IH]; intros Hw; simplify_eq/=; [done|].
  f_equal. by apply IH.
Qed.

Lemma one_hot_after (a n k : nat) :
  (k < a)%nat → (λ i, bool_decide (i = k)) <$> seq a n = replicate n false.
Proof.
  revert a. induction n as [|n IH]; intros a Ha; csimpl; [done|].
  rewrite bool_decide_eq_false_2 by lia. f_equal. apply IH. lia.
Qed.

Lemma one_hot_0 n : one_hot (S n) 0 = true :: all_zero n.
Proof.
  unfold one_hot, all_zero. cbn [seq]. csimpl. f_equal. apply one_hot_after. lia.
Qed.

Lemma one_hot_S n k : one_hot (S n) (S k) = false :: one_hot n k.
Proof.
  unfold one_hot. cbn [seq]. rewrite <-fmap_S_seq. csimpl. f_equal.
  rewrite <-list_fmap_compose. apply list_fmap_ext. intros i j _. simpl.
  apply bool_decide_ext. lia.
Qed.

(** An assignment that sets one variable is a one-hot assignment. *)
Lemma weight_one x :
  weight x = 1%nat → ∃ k, (k < length x)%nat ∧ x = one_hot (length x) k.
Proof.
  induction x as [|[] x IH]; intros Hw; simplify_eq/=.
  - exists 0%nat. split; [lia|]. rewrite one_hot_0. f_equal. by apply weight_zero.
  - destruct (IH Hw) as (k & Hk & Hx). exists (S k). split; [lia|].
    rewrite one_hot_S. by f_equal.
Qed.

Lemma length_one_hot N k : length (one_hot N k) = N.
Proof. unfold one_hot. by rewrite length_fmap, length_seq. Qed.

(** The penalty is not below zero where no variable or more than one is
    set. *)
Lemma penalty_term_nonneg (P : Qc) (w : nat) :
  0 ≤ P → w ≠ 1%nat → 0 ≤ P * (Qc_of_Z (Z.of_nat w) - 1) ^ 2 - P.
Proof.
  intros HP Hw.
  replace (P * (Qc_of_Z (Z.of_nat w) - 1) ^ 2 - P)
    with (P * Qc_of_Z ((Z.of_nat w - 1) * (Z.of_nat w - 1) - 1)).
  - apply Qcmult_nonneg_nonneg; [done|]. rewrite <-Z2Qc_inj_0.
    apply (proj1 (Z2Qc_inj_le 0 _)).
    assert (Z.of_nat w = 0 ∨ 2 ≤ Z.of_nat w)%Z as [-> | ?] by lia; [lia | nia].
  - rewrite Z2Qc_inj_sub, Z2Qc_inj_mul, Z2Qc_inj_sub, Z2Qc_inj_1. cbn [Qcpower]. ring.
Qed.

Section Landscape.
Variables (C : nat → Qc) (N : nat) (TestC : list Qc) (P : Qc).
Hypothesis Hlen : length TestC = N.
Hypothesis Hpos : Forall (λ c, 0 ≤ c) TestC.
Hypothesis HP : total_cost TestC < P.

Lemma penalty_nonneg : 0 ≤ P.
Proof.
  apply Qclt_le_weak, Qcle_lt_trans with (total_cost TestC); [|done].
  by apply total_cost_nonneg.
Qed.

Lemma selected_cost_nonneg x :
  0 ≤ sumQ (λ i, cost_dict C TestC i * bit x i) (seq 0 N).
Proof.
  apply sumQ_nonneg. intros i Hi%elem_of_seq.
  destruct (lookup_lt_is_Some_2 TestC i) as [ci Hci]; [lia|].
  rewrite (cost_dict_lookup _ _ _ _ Hci).
  apply Qcmult_nonneg_nonneg; [|apply bit_nonneg].
  by destruct (cost_le_total_cost _ _ _ Hpos Hci).
Qed.

(** Where no variable or more than one is set the objective is not
    negative. *)
Lemma Qubo_energy_infeasible x :
  length x = N → weight x ≠ 1%nat → 0 ≤ qubo_energy (Qubo C N TestC P) x.
Proof.
  intros Hx Hw. rewrite Qubo_energy.
  pose proof (sum_bits_weight x) as Hsum. rewrite Hx in Hsum. rewrite Hsum.
  unfold Qcminus at 1. rewrite <-Qcplus_assoc.
  apply Qcplus_nonneg_nonneg; [apply selected_cost_nonneg|].
  apply penalty_term_nonneg; [apply penalty_nonneg | done].
Qed.

(** Where one variable is set the objective is negative. *)
Lemma Qubo_energy_feasible k ck :
  TestC !! k = Some ck →
  qubo_energy (Qubo C N TestC P) (one_hot N k) = ck - P ∧ ck - P < 0.
Proof.
  intros Hk. assert (k < N)%nat by (apply lookup_lt_Some in Hk; lia).
  rewrite Qubo_energy_one_hot, (cost_dict_lookup _ _ _ _ Hk) by done. split; [done|].
  destruct (cost_le_total_cost _ _ _ Hpos Hk) as [_ Hle].
  apply (proj2 (Qclt_minus_iff (ck - P) 0)).
  replace (0 + - (ck - P)) with (P + - ck) by ring.
  apply (proj1 (Qclt_minus_iff ck P)).
  by apply Qcle_lt_trans with (total_cost TestC).
Qed.

End Landscape.

(** X7. The objective of the QUBO dictionary at an assignment [x] of the
    [N] variables is the cost of the variables that [x] sets, plus the
    penalty times [(w - 1)^2 - 1], where [w] is the number of variables
    that [x] sets. *)
Theorem qubo_objective_closed_form (C : nat → Qc) (N : nat) (TestC : list Qc) (P : Qc)
    (x : list bool) :
  (1 ≤ N)%nat → length x = N →
  qubo_energy (Qubo C N TestC P) x
  = sumQ (λ i, cost_dict C TestC i * bit x i) (seq 0 N)
    + P * ((Qc_of_Z (Z.of_nat (weight x)) - 1) ^ 2 - 1).
Proof.
  intros _ Hx. rewrite Qubo_energy.
  pose proof (sum_bits_weight x) as Hsum. rewrite Hx in Hsum. rewrite Hsum. ring.
Qed.

Lemma qubo_objective_closed_form_witness :
  (1 ≤ TestN)%nat ∧ length [true; false; true; true; false] = TestN
  ∧ qubo_energy (Qubo (λ _, 0) TestN TestC TestP) [true; false; true; true; false]
    = sumQ (λ i, cost_dict (λ _, 0) TestC i * bit [true; false; true; true; false] i)
        (seq 0 TestN)
      + TestP * ((Qc_of_Z (Z.of_nat (weight [true; false; true; true; false])) - 1) ^ 2 - 1).
Proof.
  split; [unfold TestN; lia|]. split; [reflexivity|].
  apply (qubo_objective_closed_form (λ _, 0) TestN TestC TestP
           [true; false; true; true; false]); [unfold TestN; lia | reflexivity].
Defined.

(** X8. With costs that are not negative and a penalty above their sum,
    every assignment of the [N] variables that does not set exactly one of
    them has an objective strictly above the least objective of the
    assignments that set exactly one. *)
Theorem infeasible_above_feasible (C : nat → Qc) (N : nat) (TestC : list Qc) (P : Qc)
    (x : list bool) :
  (1 ≤ N)%nat → length TestC = N → Forall (λ c, 0 ≤ c) TestC → total_cost TestC < P →
  length x = N → weight x ≠ 1%nat →
  ∃ m, min_feasible (Qubo C N TestC P) N = Some m
    ∧ m < qubo_energy (Qubo C N TestC P) x.
Proof.
  intros HN Hlen Hpos HP Hx Hw.
  destruct (min_feasible_is_Some (Qubo C N TestC P) N HN) as [m Hm]. exists m.
  split; [done|].
  destruct (lookup_lt_is_Some_2 TestC 0) as [c0 Hc0]; [lia|].
  destruct (Qubo_energy_feasible C N TestC P Hlen Hpos HP 0 c0 Hc0) as [He Hneg].
  pose proof (min_feasible_le _ _ _ 0%nat Hm ltac:(lia)) as Hle. rewrite He in Hle.
  apply Qcle_lt_trans with (c0 - P); [done|].
  apply Qclt_le_trans with 0; [done|].
  by apply Qubo_energy_infeasible.
Qed.

Lemma infeasible_above_feasible_witness :
  (1 ≤ TestN)%nat ∧ length TestC = TestN ∧ Forall (λ c, 0 ≤ c) TestC
  ∧ total_cost TestC < TestP
  ∧ length [true; true; false; true; false] = TestN
  ∧ weight [true; true; false; true; false] ≠ 1%nat
  ∧ ∃ m, min_feasible (Qubo (λ _, 0) TestN TestC TestP) TestN = Some m
      ∧ m < qubo_energy (Qubo (λ _, 0) TestN TestC TestP) [true; true; false; true; false].
Proof.
  assert (Forall (λ c, 0 ≤ c) TestC) as Hpos by (repeat constructor; by vm_compute).
  split; [unfold TestN; lia|]. split; [reflexivity|]. split; [exact Hpos|].
  split; [by vm_compute|]. split; [reflexivity|]. split; [simpl; lia|].
  apply (infeasible_above_feasible (λ _, 0) TestN TestC TestP
           [true; true; false; true; false]);
    [unfold TestN; lia | reflexivity | exact Hpos | by vm_compute | reflexivity
    | simpl; lia].
Defined.

(** X9. With costs that are not negative and a penalty above their sum,
    the assignments of the [N] variables at which the objective of the
    QUBO dictionary is least are exactly the assignments that set one
    variable, the one of an item of least cost. *)
Theorem qubo_minimizers (C : nat → Qc) (N : nat) (TestC : list Qc) (P : Qc)
    (x : list bool) :
  (1 ≤ N)%nat → length TestC = N → Forall (λ c, 0 ≤ c) TestC → total_cost TestC < P →
  length x = N →
  (∀ y, length y = N →
     qubo_energy (Qubo C N TestC P) x ≤ qubo_energy (Qubo C N TestC P) y)
  ↔ ∃ k ck, TestC !! k = Some ck ∧ x = one_hot N k ∧ Forall (λ c, ck ≤ c) TestC.
Proof.
  intros HN Hlen Hpos HP Hx. split.
  - intros Hmin. destruct (decide (weight x = 1%nat)) as [Hw|Hw].
    + destruct (weight_one x Hw) as (k & Hk & Hxk). rewrite Hx in Hk, Hxk.
      destruct (lookup_lt_is_Some_2 TestC k) as [ck Hck]; [lia|].
      exists k, ck. split; [done|]. split; [done|].
      apply Forall_lookup. intros l cl Hcl.
      pose proof (Hmin (one_hot N l) (length_one_hot N l)) as Hle. rewrite Hxk in Hle.
      destruct (Qubo_energy_feasible C N TestC P Hlen Hpos HP k ck Hck) as [Hek _].
      destruct (Qubo_energy_feasible C N TestC P Hlen Hpos HP l cl Hcl) as [Hel _].
      rewrite Hek, Hel in Hle. by apply Qcplus_le_mono_r in Hle.
    + destruct (lookup_lt_is_Some_2 TestC 0) as [c0 Hc0]; [lia|].
      destruct (Qubo_energy_feasible C N TestC P Hlen Hpos HP 0 c0 Hc0) as [He Hneg].
      pose proof (Hmin (one_hot N 0) (length_one_hot N 0)) as Hle. rewrite He in Hle.
      pose proof (Qubo_energy_infeasible C N TestC P Hlen Hpos HP x Hx Hw) as H0.
      exfalso. apply (Qclt_not_le _ _ Hneg). by trans (qubo_energy (Qubo C N TestC P) x).
  - intros (k & ck & Hck & -> & Hbest) y Hy.
    destruct (Qubo_energy_feasible C N TestC P Hlen Hpos HP k ck Hck) as [-> Hneg].
    destruct (decide (weight y = 1%nat)) as [Hw|Hw].
    + destruct (weight_one y Hw) as (l & Hl & Hyl). rewrite Hy in Hl, Hyl.
      destruct (lookup_lt_is_Some_2 TestC l) as [cl Hcl]; [lia|]. rewrite Hyl.
      destruct (Qubo_energy_feasible C N TestC P Hlen Hpos HP l cl Hcl) as [-> _].
      apply Qcplus_le_mono_r. rewrite Forall_lookup in Hbest. by eapply Hbest.
    + apply Qclt_le_weak, Qclt_le_trans with 0; [done|].
      by apply Qubo_energy_infeasible.
Qed.

Lemma qubo_minimizers_witness :
  (1 ≤ TestN)%nat ∧ length TestC = TestN ∧ Forall (λ c, 0 ≤ c) TestC
  ∧ total_cost TestC < TestP ∧ length (one_hot TestN 3) = TestN
  ∧ ((∀ y, length y = TestN →
        qubo_energy (Qubo (λ _, 0) TestN TestC TestP) (one_hot TestN 3)
        ≤ qubo_energy (Qubo (λ _, 0) TestN TestC TestP) y)
     ↔ ∃ k ck, TestC !! k = Some ck ∧ one_hot TestN 3 = one_hot TestN k
         ∧ Forall (λ c, ck ≤ c) TestC).
Proof.
  assert (Forall (λ c, 0 ≤ c) TestC) as Hpos by (repeat constructor; by vm_compute).
  split; [unfold TestN; lia|]. split; [reflexivity|]. split; [exact Hpos|].
  split; [by vm_compute|]. split; [reflexivity|].
  apply (qubo_minimizers (λ _, 0) TestN TestC TestP (one_hot TestN 3));
    [unfold TestN; lia | reflexivity | exact Hpos | by vm_compute | reflexivity].
Defined.

(** ** The quadratic program handed to qiskit *)

(** The names that key a quadratic coefficient. *)
Lemma qiskit_quadratic_keys C N TestC P a b :
  is_Some (qp_quadratic (qiskit_cost_function C N TestC P) !! (a, b)) →
  ∃ i j, (i ≤ j < N)%nat ∧ a = var_name i ∧ b = var_name j.
Proof.
  unfold qiskit_cost_function, num_qubits. cbn [qp_quadratic]. intros Hsome.
  set (items := (λ ij : nat * nat, ((var_name ij.1, var_name ij.2),
                   Poly.coeff_monomial (cost_poly C N TestC P)
                     (Monomial.mul (Monomial.var N ij.1) (Monomial.var N ij.2))))
                <$> upper_pairs N) in *.
  destruct (decide ((a, b) ∈ items.*1)) as [Hin|Hout].
  - apply list_elem_of_fmap in Hin as ([ab v] & Hab & Hin). simpl in Hab. subst ab.
    apply list_elem_of_fmap in Hin as ([i j] & Heq & Hij%elem_of_upper_pairs).
    exists i, j. split; [done|].
    pose proof (f_equal fst Heq) as Hk. cbn [fst snd] in Hk.
    split; [exact (f_equal fst Hk) | exact (f_equal snd Hk)].
  - rewrite dict_lookup_None in Hsome by done. by destruct Hsome.
Qed.

(** X10. On integer costs and an integer penalty, as in the notebook, the
    quadratic program handed to qiskit and the QUBO dictionary handed to
    the annealer have the same objective at every assignment. *)
Theorem qiskit_objective_on_integers (C : nat → Qc) (N : nat) (zs : list Z) (zp : Z)
    (x : list bool) :
  (1 ≤ N)%nat → length zs = N →
  qp_objective (qiskit_cost_function C N (Qc_of_Z <$> zs) (Qc_of_Z zp)) x
  = Some (qubo_energy (Qubo C N (Qc_of_Z <$> zs) (Qc_of_Z zp)) x).
Proof. intros _ Hlen. by apply qp_objective_integers. Qed.

Lemma qiskit_objective_on_integers_witness :
  (1 ≤ 3)%nat ∧ length [4; -3; 7]%Z = 3%nat
  ∧ qp_objective (qiskit_cost_function (λ _, 0) 3 (Qc_of_Z <$> [4; -3; 7]%Z) (Qc_of_Z 50))
      [true; true; false]
    = Some (qubo_energy (Qubo (λ _, 0) 3 (Qc_of_Z <$> [4; -3; 7]%Z) (Qc_of_Z 50))
              [true; true; false]).
Proof.
  split; [lia|]. split; [reflexivity|].
  apply (qiskit_objective_on_integers (λ _, 0) 3 [4; -3; 7]%Z 50 [true; true; false]);
    [lia | reflexivity].
Defined.





(** X13. The coefficients of the quadratic program: the linear coefficient
    of [X_i] is [int(C_i - 2 P)]; the quadratic coefficient keyed by
    [(X_i, X_j)] is [P] for [i = j] and [2 P] for [i < j]; there is no
    coefficient keyed by [(X_j, X_i)] for [i < j]. *)
Theorem qiskit_coefficients (C : nat → Qc) (N : nat) (TestC : list Qc) (P : Qc)
    (i j : nat) (ci : Qc) :
  length TestC = N → TestC !! i = Some ci → (i ≤ j < N)%nat →
  let qp := qiskit_cost_function C N TestC P in
  qp_linear qp !! i = Some (int (ci - 2 * P))
  ∧ qp_quadratic qp !! (var_name i, var_name j)
    = Some (if decide (i = j) then P else 2 * P)
  ∧ ((i < j)%nat → qp_quadratic qp !! (var_name j, var_name i) = None).
Proof.
  intros Hlen Hi Hij qp. split; [|split].
  - unfold qp. rewrite qiskit_linear_lookup by lia. unfold cost_poly, num_qubits.
    by rewrite coeff_cost_function_var, (cost_dict_lookup _ _ _ _ Hi) by lia.
  - unfold qp. rewrite qiskit_quadratic_lookup by done. unfold cost_poly, num_qubits.
    f_equal. destruct (decide (i = j)) as [->|Hne].
    + by rewrite coeff_cost_function_square by lia.
    + by rewrite coeff_cost_function_cross by lia.
  - intros Hlt. apply eq_None_not_Some. intros Hsome.
    destruct (qiskit_quadratic_keys C N TestC P _ _ Hsome) as (a & b & Hab & Ha & Hb).
    apply (inj var_name) in Ha, Hb. lia.
Qed.

Lemma qiskit_coefficients_witness :
  length TestC = TestN ∧ TestC !! 1%nat = Some (Qc_of_Z 3) ∧ (1 ≤ 4 < TestN)%nat
  ∧ let qp := qiskit_cost_function (λ _, 0) TestN TestC TestP in
    qp_linear qp !! 1%nat = Some (int (Qc_of_Z 3 - 2 * TestP))
    ∧ qp_quadratic qp !! (var_name 1, var_name 4)
      = Some (if decide (1 = 4)%nat then TestP else 2 * TestP)
    ∧ ((1 < 4)%nat → qp_quadratic qp !! (var_name 4, var_name 1) = None).
Proof.
  split; [reflexivity|]. split; [reflexivity|]. split; [unfold TestN; lia|].
  apply (qiskit_coefficients (λ _, 0) TestN TestC TestP 1 4 (Qc_of_Z 3));
    [reflexivity | reflexivity | unfold TestN; lia].
Defined.

(** ** The data that the notebook uses *)

Lemma bind_ext_elem {A B} (f g : A → list B) (l : list A) :
  (∀ a, a ∈ l → f a = g a) → l ≫= f = l ≫= g.
Proof.
  induction l as [|a l IH]; intros Hfg; csimpl; [done|].
  rewrite (Hfg a) by (by left). f_equal. apply IH. intros b Hb. apply Hfg. by right.
Qed.

(** The cost function uses the costs below [N] only. *)
Lemma cost_function_ext N (c c' : nat → Qc) P :
  (∀ i, (i < N)%nat → c i = c' i) → cost_function N c P = cost_function N c' P.
Proof.
  intros Hc. unfold cost_function. f_equal. unfold Poly.sum.
  apply bind_ext_elem. intros i Hi%elem_of_seq. rewrite Hc by lia. done.
Qed.

(** X14. With at least [N] costs given, neither the costs beyond the first
    [N] nor the symbol [C] reach the results: two cost vectors with the same
    first [N] entries give the same polynomial, the same QUBO dictionary
    and the same quadratic program. *)
Theorem unused_data_ignored (C C' : nat → Qc) (N : nat) (TestC TestC' : list Qc) (P : Qc) :
  (1 ≤ N)%nat → (N ≤ length TestC)%nat → take N TestC = take N TestC' →
  cost_poly C N TestC P = cost_poly C' N TestC' P
  ∧ Qubo C N TestC P = Qubo C' N TestC' P
  ∧ qiskit_cost_function C N TestC P = qiskit_cost_function C' N TestC' P.
Proof.
  intros _ Hlen Htake.
  assert (cost_poly C N TestC P = cost_poly C' N TestC' P) as Hp.
  { unfold cost_poly, num_qubits. apply cost_function_ext. intros i Hi.
    unfold cost_dict.
    assert (TestC !! i = TestC' !! i) as Heq.
    { rewrite <-(lookup_take_lt TestC N i), <-(lookup_take_lt TestC' N i) by done.
      by rewrite Htake. }
    rewrite <-Heq. by destruct (lookup_lt_is_Some_2 TestC i ltac:(lia)) as [ci ->]. }
  split; [done|]. split.
  - unfold Qubo. by rewrite Hp.
  - unfold qiskit_cost_function. cbn zeta. by rewrite Hp.
Qed.

Lemma unused_data_ignored_witness :
  (1 ≤ 2)%nat ∧ (2 ≤ length (Qc_of_Z <$> [4; 3; 7]%Z))%nat
  ∧ take 2 (Qc_of_Z <$> [4; 3; 7]%Z) = take 2 (Qc_of_Z <$> [4; 3]%Z)
  ∧ cost_poly (λ _, 0) 2 (Qc_of_Z <$> [4; 3; 7]%Z) 1
    = cost_poly (λ _, 1) 2 (Qc_of_Z <$> [4; 3]%Z) 1
  ∧ Qubo (λ _, 0) 2 (Qc_of_Z <$> [4; 3; 7]%Z) 1 = Qubo (λ _, 1) 2 (Qc_of_Z <$> [4; 3]%Z) 1
  ∧ qiskit_cost_function (λ _, 0) 2 (Qc_of_Z <$> [4; 3; 7]%Z) 1
    = qiskit_cost_function (λ _, 1) 2 (Qc_of_Z <$> [4; 3]%Z) 1.
Proof.
  split; [lia|]. split; [simpl; lia|]. split; [reflexivity|].
  apply (unused_data_ignored (λ _, 0) (λ _, 1) 2
           (Qc_of_Z <$> [4; 3; 7]%Z) (Qc_of_Z <$> [4; 3]%Z) 1);
    [lia | simpl; lia | reflexivity].
Defined.
